(** * CBC padding-oracle attack: a shallow embedding and its properties

    The development follows the two source files of the demo:

    - [DemoOracle.py]: the constant [BLOCKSIZE] and the class [Oracle]
      ([encrypt], [decrypt_check]);
    - [CBC Padding Oracle Attack.py]: the helper [xor], the function
      [attack_single_block] and the driver of the [__main__] block.

    Python [bytes] objects and lists of small integers are lists of [Z];
    a value is a byte when it lies in [0, 256).  Python exceptions are an
    explicit error type, and every call of [oracle.decrypt_check] is
    recorded, in order, in a log carried next to the outcome.  The [print]
    statements are left out.  The AES block cipher of PyCryptodome is a
    parameter; its CBC mode and its PKCS#7 [pad] and [unpad] are written
    out. *)

From Stdlib Require Import ZArith Lia.
From stdpp Require Import base tactics option list list_numbers.

Local Open Scope Z_scope.

(** ** Python values and exceptions *)

(** AES block size in bytes ([DemoOracle.py], line 42). *)
Definition BLOCKSIZE : nat := 16.

Definition is_byteb (x : Z) : bool := (0 <=? x) && (x <? 256).

Definition is_byte (x : Z) : Prop := 0 <= x < 256.

Definition is_bytes (l : list Z) : Prop := Forall is_byte l.

(** A block: [BLOCKSIZE] bytes. *)
Definition is_block (l : list Z) : Prop :=
  length l = BLOCKSIZE /\ is_bytes l.

(** The exceptions that the modelled code can raise.  [exit(1)] raises
    [SystemExit] with code 1. *)
Inductive exn : Type :=
| AssertionError
| ValueError
| IndexError
| OverflowError
| SystemExit (code : Z).

Inductive result (A : Type) : Type :=
| Ok (a : A)
| Raise (e : exn).

Arguments Ok {A} a.
Arguments Raise {A} e.

#[global] Instance result_ret : MRet result := fun A a => Ok a.

#[global] Instance result_bind : MBind result := fun A B f m =>
  match m with
  | Ok a => f a
  | Raise e => Raise e
  end.

(** One call [oracle.decrypt_check(block, iv)]: the two arguments. *)
Definition query : Type := list Z * list Z.

(** A computation that calls the oracle: its outcome and the calls it
    made, oldest first. *)
Record traced (A : Type) : Type := Traced {
  outcome : result A;
  queries : list query
}.

Arguments Traced {A} outcome queries.
Arguments outcome {A} t.
Arguments queries {A} t.

#[global] Instance traced_ret : MRet traced := fun A a => Traced (Ok a) [].

#[global] Instance traced_bind : MBind traced := fun A B f m =>
  match outcome m with
  | Ok a => let t := f a in Traced (outcome t) (queries m ++ queries t)
  | Raise e => Traced (Raise e) (queries m)
  end.

(** A computation without oracle calls. *)
Definition lift {A : Type} (r : result A) : traced A := Traced r [].

(** [bytes(l)] for a list of integers: [ValueError] unless every element
    is in [range(0, 256)]. *)
Definition bytes_of (l : list Z) : result (list Z) :=
  if forallb is_byteb l then Ok l else Raise ValueError.

(** [g.to_bytes(1, "big")]. *)
Definition to_bytes1 (g : Z) : result (list Z) :=
  if is_byteb g then Ok [g] else Raise OverflowError.

(** [l[i]] for a non-negative index. *)
Definition getitem (l : list Z) (i : nat) : result Z :=
  match l !! i with
  | Some x => Ok x
  | None => Raise IndexError
  end.

(** [l[i] = v] for a non-negative index: the updated list. *)
Definition setitem (l : list Z) (i : nat) (v : Z) : result (list Z) :=
  if decide (i < length l)%nat then Ok (<[i:=v]> l) else Raise IndexError.

(** [range(0x100)]. *)
Definition guesses : list Z := seqZ 0 256.

(** [reversed(range(BLOCKSIZE))]. *)
Definition indices : list nat := reverse (seq 0 BLOCKSIZE).

(** The array [iv_list] once the indices from [n] on are recovered, for
    an intermediate value [d]: zero below [n], [d] from [n] on. *)
Definition partial_state (d : list Z) (n : nat) : list Z :=
  replicate n 0 ++ drop n d.

(** The indices processed before index [i], and after it. *)
Definition indices_before (i : nat) : list nat :=
  reverse (seq (S i) (BLOCKSIZE - S i)).

Definition indices_after (i : nat) : list nat := reverse (seq 0 i).

(** ** [CBC Padding Oracle Attack.py] *)

(** [xor(a, b)], lines 22-25. *)
Definition xor (a b : list Z) : result (list Z) :=
  if decide (length a = length b)
  then bytes_of (zip_with Z.lxor a b)
  else Raise AssertionError.

(** The candidate IV [iv1] of lines 43-47. *)
Definition probe_iv (i : nat) (g : Z) (iv_list : list Z) : result (list Z) :=
  pre ← bytes_of (take i iv_list);
  gb ← to_bytes1 g;
  suf ← xor (drop (i + 1) iv_list)
            (replicate (BLOCKSIZE - (i + 1)) (Z.of_nat (BLOCKSIZE - i)));
  mret (pre ++ gb ++ suf).

(** The second IV [iv2] of lines 62-66. *)
Definition confirm_iv (i : nat) (iv1 : list Z) : result (list Z) :=
  x ← getitem iv1 (i - 1);
  b ← to_bytes1 ((x + 1) `mod` 256);
  mret (take (i - 1) iv1 ++ b ++ drop ((i - 1) + 1) iv1).

(** [range(0, n, BLOCKSIZE)]. *)
Definition block_starts (n : nat) : list nat :=
  (fun k => (k * BLOCKSIZE)%nat) <$> seq 0 (Nat.div (n + BLOCKSIZE - 1) BLOCKSIZE).

(** [[ct[i : i + BLOCKSIZE] for i in range(0, len(ct), BLOCKSIZE)]],
    line 106. *)
Definition split_blocks (ct : list Z) : list (list Z) :=
  (fun i => take BLOCKSIZE (drop i ct)) <$> block_starts (length ct).

Section Attack.

(** The method [oracle.decrypt_check] of the oracle object handed to
    the attack. *)
Variable oracle : list Z -> list Z -> result (list Z * bool).

Definition decrypt_check_call (block iv : list Z) : traced (list Z * bool) :=
  Traced (oracle block iv) [(block, iv)].

(** The loop [for g in range(0x100)] of lines 38-88, on the guesses
    still to try.  It yields [iv_list] after the assignment that
    precedes [break]; running out of guesses is the [else] branch of the
    loop, [exit(1)]. *)
Fixpoint guess_loop (block : list Z) (i : nat) (iv_list : list Z)
    (gs : list Z) : traced (list Z) :=
  match gs with
  | [] => lift (Raise (SystemExit 1))
  | g :: gs' =>
      iv1 ← lift (probe_iv i g iv_list);
      '(dk, r) ← decrypt_check_call block iv1;
      if (r : bool) then
        if decide (i = (BLOCKSIZE - 1)%nat) then
          iv2 ← lift (confirm_iv i iv1);
          '(dk2, r2) ← decrypt_check_call block iv2;
          if (r2 : bool) then
            lift (setitem iv_list i (Z.lxor g (Z.of_nat (BLOCKSIZE - i))))
          else guess_loop block i iv_list gs'
        else
          lift (setitem iv_list i (Z.lxor g (Z.of_nat (BLOCKSIZE - i))))
      else guess_loop block i iv_list gs'
  end.

(** The loop [for i in reversed(range(BLOCKSIZE))] of lines 34-88, on
    the indices still to process. *)
Fixpoint byte_loop (block : list Z) (idxs : list nat) (iv_list : list Z)
    : traced (list Z) :=
  match idxs with
  | [] => mret iv_list
  | i :: idxs' =>
      iv_list' ← guess_loop block i iv_list guesses;
      byte_loop block idxs' iv_list'
  end.

(** [attack_single_block(iv, block, oracle)], lines 28-93. *)
Definition attack_single_block (iv block : list Z) : traced (list Z) :=
  iv_list ← byte_loop block indices (replicate BLOCKSIZE 0);
  lift (xor iv_list iv).

(** The loop of lines 109-113 on the blocks still to attack, with the
    current values of [plain] and [prev_block]. *)
Fixpoint driver_loop (blocks : list (list Z)) (plain prev_block : list Z)
    : traced (list Z) :=
  match blocks with
  | [] => mret plain
  | block :: rest =>
      plain_block ← attack_single_block prev_block block;
      driver_loop rest (plain ++ plain_block) block
  end.

(** Lines 106-114: the attack on a whole ciphertext. *)
Definition driver (iv ct : list Z) : traced (list Z) :=
  driver_loop (split_blocks ct) [] iv.

End Attack.

(** *** The driver in the words of the specification

    Block [k] of the ciphertext, its predecessor (the IV for [k = 0], the
    block [k - 1] otherwise), and the driver as the concatenation of the
    blocks recovered in increasing order of [k]. *)
Definition ciphertext_block (ct : list Z) (k : nat) : list Z :=
  take BLOCKSIZE (drop (k * BLOCKSIZE) ct).

Definition predecessor (iv ct : list Z) (k : nat) : list Z :=
  match k with
  | O => iv
  | S k' => ciphertext_block ct k'
  end.

Definition block_count (ct : list Z) : nat :=
  Nat.div (length ct + BLOCKSIZE - 1) BLOCKSIZE.

Definition driver_spec (oracle : list Z -> list Z -> result (list Z * bool))
    (iv ct : list Z) : traced (list Z) :=
  plain_blocks ← mapM (fun k => attack_single_block oracle (predecessor iv ct k)
                                  (ciphertext_block ct k))
                      (seq 0 (block_count ct));
  mret (concat plain_blocks).

(** The IVs of the guesses [gs], as calls on [block]. *)
Definition probes_of (block : list Z) (i : nat) (iv_list : list Z)
    (gs : list Z) (qs : list query) : Prop :=
  Forall2 (fun g q => exists iv1, probe_iv i g iv_list = Ok iv1 /\ q = (block, iv1))
          gs qs.

(** Guess [g] at index [i] is not accepted: the oracle reports invalid
    padding for its IV, or (last index only) valid padding for it and
    invalid padding for the confirmation IV. *)
Definition guess_rejected (oracle : list Z -> list Z -> result (list Z * bool))
    (block : list Z) (i : nat) (iv_list : list Z) (g : Z) : Prop :=
  exists iv1, probe_iv i g iv_list = Ok iv1 /\
    ((exists dk, oracle block iv1 = Ok (dk, false)) \/
     (i = (BLOCKSIZE - 1)%nat /\
      exists dk iv2 dk2,
        oracle block iv1 = Ok (dk, true) /\
        confirm_iv i iv1 = Ok iv2 /\
        oracle block iv2 = Ok (dk2, false))).

(** The guesses that can pass the first check at the last index, for an
    intermediate value that ends in [y; x]: the pad of length one, or a pad
    of length [y] between 2 and 16. *)
Definition last_index_candidate (x y g : Z) : Prop :=
  Z.lxor x g = 1 \/ (Z.lxor x g = y /\ 2 <= y <= 16).

#[global] Instance last_index_candidate_dec x y g :
  Decision (last_index_candidate x y g).
Proof. unfold last_index_candidate. apply _. Defined.

(** Calls made per guess at index [i]: two at the last index, one
    elsewhere. *)
Definition calls_per_guess (i : nat) : nat :=
  if decide (i = (BLOCKSIZE - 1)%nat) then 2%nat else 1%nat.

(** ** [DemoOracle.py] *)

(** [Crypto.Util.Padding.pad(data_to_pad, block_size)] of PyCryptodome,
    PKCS#7 style: [block_size - len % block_size] bytes of that value are
    appended. *)
Definition pad (data_to_pad : list Z) (block_size : nat) : list Z :=
  let padding_len := (block_size - length data_to_pad mod block_size)%nat in
  data_to_pad ++ replicate padding_len (Z.of_nat padding_len).

(** [Crypto.Util.Padding.unpad(padded_data, block_size)] of PyCryptodome,
    PKCS#7 style; every failure is a [ValueError]. *)
Definition unpad (padded_data : list Z) (block_size : nat) : result (list Z) :=
  let pdata_len := length padded_data in
  if decide (pdata_len = 0%nat) then Raise ValueError
  else if decide ((pdata_len mod block_size)%nat <> 0%nat) then Raise ValueError
  else
    padding_len ← getitem padded_data (pdata_len - 1);
    if decide (padding_len < 1 \/ padding_len > Z.of_nat (block_size `min` pdata_len))
    then Raise ValueError
    else if decide (drop (pdata_len - Z.to_nat padding_len) padded_data
                    <> replicate (Z.to_nat padding_len) padding_len)
    then Raise ValueError
    else Ok (take (pdata_len - Z.to_nat padding_len) padded_data).

(** Whether [unpad] accepts a block. *)
Definition valid_padding (l : list Z) : bool :=
  match unpad l BLOCKSIZE with
  | Ok _ => true
  | Raise _ => false
  end.

(** The padding check in the words of the specification: the last byte
    [p] is in [1, BLOCKSIZE] and the last [p] bytes all equal [p]. *)
Definition structurally_valid_pad (l : list Z) : Prop :=
  exists p, last l = Some p /\ 1 <= p <= Z.of_nat BLOCKSIZE /\
            Forall (fun x => x = p) (drop (length l - Z.to_nat p) l).

Section DemoOracle.

(** The AES block cipher of PyCryptodome, under a key: encryption and
    decryption of one block.  The development is parametric in it. *)
Variables aes_encrypt aes_decrypt : list Z -> list Z -> list Z.

(** An [Oracle] object: its attribute [key]. *)
Record Oracle : Type := { key : list Z }.

(** A cipher object made by [AES.new(key, AES.MODE_CBC, iv=iv)]: the
    key and the IV; [ValueError] when the IV has not the block size. *)
Definition AES_new (k iv : list Z) : result (list Z * list Z) :=
  if decide (length iv = BLOCKSIZE) then Ok (k, iv) else Raise ValueError.

(** CBC chaining over the blocks of the data. *)
Fixpoint cbc_encrypt_blocks (k prev : list Z) (blocks : list (list Z))
    : list Z :=
  match blocks with
  | [] => []
  | p :: rest =>
      let c := aes_encrypt k (zip_with Z.lxor p prev) in
      c ++ cbc_encrypt_blocks k c rest
  end.

Fixpoint cbc_decrypt_blocks (k prev : list Z) (blocks : list (list Z))
    : list Z :=
  match blocks with
  | [] => []
  | c :: rest =>
      zip_with Z.lxor (aes_decrypt k c) prev ++ cbc_decrypt_blocks k c rest
  end.

(** The ciphertext blocks of [cbc_encrypt_blocks], one by one. *)
Fixpoint cbc_chain (k prev : list Z) (blocks : list (list Z))
    : list (list Z) :=
  match blocks with
  | [] => []
  | p :: rest =>
      let c := aes_encrypt k (zip_with Z.lxor p prev) in
      c :: cbc_chain k c rest
  end.

(** [cipher.encrypt(data)] and [cipher.decrypt(data)] in CBC mode:
    [ValueError] unless the length is a multiple of the block size. *)
Definition cbc_encrypt (cipher : list Z * list Z) (data : list Z)
    : result (list Z) :=
  if decide ((length data mod BLOCKSIZE)%nat = 0%nat)
  then Ok (cbc_encrypt_blocks cipher.1 cipher.2 (split_blocks data))
  else Raise ValueError.

Definition cbc_decrypt (cipher : list Z * list Z) (data : list Z)
    : result (list Z) :=
  if decide ((length data mod BLOCKSIZE)%nat = 0%nat)
  then Ok (cbc_decrypt_blocks cipher.1 cipher.2 (split_blocks data))
  else Raise ValueError.

(** [Oracle.encrypt], lines 64-88.  [fresh_iv] is the random IV that
    [AES.new] draws; [message] is the UTF-8 encoding of the argument. *)
Definition encrypt (self : Oracle) (fresh_iv : list Z) (message : list Z)
    : result (list Z * list Z) :=
  cipher ← AES_new (key self) fresh_iv;
  let iv := cipher.2 in
  ct ← cbc_encrypt cipher (pad message BLOCKSIZE);
  mret (iv, ct).

(** [Oracle.decrypt_check], lines 90-144. *)
Definition decrypt_check (self : Oracle) (ct iv : list Z)
    : result (list Z * bool) :=
  cipher2 ← AES_new (key self) iv;
  d_k ← cbc_decrypt cipher2 ct;
  match unpad d_k BLOCKSIZE with
  | Ok _ => Ok (d_k, true)
  | Raise ValueError => Ok (d_k, false)
  | Raise e => Raise e
  end.

(** The [__main__] block of the attack script, lines 96-114, for an
    oracle with key [k], a drawn IV and a plaintext. *)
Definition main (k fresh_iv plaintext : list Z) : traced (list Z) :=
  let oracle := {| key := k |} in
  '(iv, ct) ← lift (encrypt oracle fresh_iv plaintext);
  driver (decrypt_check oracle) iv ct.

(** The [__main__] block of [DemoOracle.py], lines 148-156, for an
    oracle with key [k], a drawn IV and a message: the four values it
    prints. *)
Definition demo_main (k fresh_iv message : list Z)
    : result (list Z * list Z * list Z * bool) :=
  let oracle := {| key := k |} in
  '(iv, ct) ← encrypt oracle fresh_iv message;
  '(d_k, valid) ← decrypt_check oracle ct iv;
  mret (iv, ct, d_k, valid).

End DemoOracle.

(** *** A toy instance

    A toy block cipher to run the definitions on: a block is reversed and
    every byte is XORed with a byte drawn from the key. *)
Definition toy_mask (k : list Z) : Z :=
  match k with
  | x :: _ => x `mod` 256
  | [] => 0
  end.

Definition toy_encrypt (k b : list Z) : list Z :=
  (fun x => Z.lxor x (toy_mask k)) <$> reverse b.

Definition toy_decrypt (k c : list Z) : list Z :=
  reverse ((fun x => Z.lxor x (toy_mask k)) <$> c).

Definition toy_key : list Z :=
  [19; 200; 7; 77; 254; 1; 0; 33; 90; 141; 16; 2; 255; 64; 128; 5].

Definition toy_iv : list Z :=
  [1; 2; 3; 4; 5; 6; 7; 8; 9; 10; 11; 12; 13; 14; 15; 16].

(** The demo oracle over the toy cipher. *)
Definition toy_oracle : list Z -> list Z -> result (list Z * bool) :=
  decrypt_check toy_decrypt {| key := toy_key |}.

(** A ciphertext block whose intermediate value ends in [1; 2; 6]: at
    the last index the guess 4 passes the first check only, and the guess 7
    passes both. *)
Definition sample_intermediate : list Z :=
  [10; 20; 30; 40; 50; 60; 70; 80; 90; 100; 110; 120; 130; 1; 2; 6].

Definition sample_block : list Z := toy_encrypt toy_key sample_intermediate.

(** A ciphertext block for which the accepted guess is 255 at every
    index. *)
Definition worst_intermediate : list Z :=
  [239; 240; 241; 242; 243; 244; 245; 246; 247; 248; 249; 250; 251; 252;
   253; 254].

Definition worst_block : list Z := toy_encrypt toy_key worst_intermediate.

(** The pad values [BLOCKSIZE - i] for [i] from 0: 16, 15, ..., 1. *)
Definition pad_values : list Z :=
  (fun i => Z.of_nat (BLOCKSIZE - i)) <$> seq 0 BLOCKSIZE.

(** An oracle that reports valid padding for every call. *)
Definition always_valid (_ _ : list Z) : result (list Z * bool) := Ok ([], true).

(** An oracle that never reports valid padding. *)
Definition never_valid (_ _ : list Z) : result (list Z * bool) := Ok ([], false).

(** UTF-8 bytes of ["Long Secret Message"]. *)
Definition long_secret_message : list Z :=
  [76; 111; 110; 103; 32; 83; 101; 99; 114; 101; 116; 32; 77; 101; 115;
   115; 97; 103; 101].

(** * Properties *)

(** ** Bytes and XOR *)

Lemma is_byteb_true x : is_byteb x = true <-> is_byte x.
Proof. unfold is_byteb, is_byte. rewrite andb_true_iff. lia. Qed.

Lemma forallb_is_byteb l : forallb is_byteb l = true <-> is_bytes l.
Proof.
  unfold is_bytes. induction l as [|x l IH]; simpl.
  - split; [constructor | reflexivity].
  - rewrite andb_true_iff, Forall_cons, IH, is_byteb_true. reflexivity.
Qed.

Lemma bytes_of_ok l : is_bytes l -> bytes_of l = Ok l.
Proof. intros H. unfold bytes_of. apply forallb_is_byteb in H. rewrite H. reflexivity. Qed.

Lemma bytes_of_inv l l' : bytes_of l = Ok l' -> l' = l /\ is_bytes l.
Proof.
  unfold bytes_of. destruct (forallb is_byteb l) eqn:E; [|discriminate].
  intros [= <-]. split; [reflexivity | apply forallb_is_byteb, E].
Qed.

Lemma to_bytes1_ok g : is_byte g -> to_bytes1 g = Ok [g].
Proof. intros H. unfold to_bytes1. apply is_byteb_true in H. rewrite H. reflexivity. Qed.

Lemma lxor_byte a b : is_byte a -> is_byte b -> is_byte (Z.lxor a b).
Proof.
  unfold is_byte. intros Ha Hb.
  assert (Hnn : 0 <= Z.lxor a b) by (apply Z.lxor_nonneg; lia).
  split; [exact Hnn|].
  destruct (Z.eq_dec (Z.lxor a b) 0) as [->|Hne]; [lia|].
  apply (Z.log2_lt_pow2 _ 8); [lia|].
  eapply Z.le_lt_trans; [apply Z.log2_lxor; lia|].
  apply Z.max_lub_lt.
  - destruct (Z.eq_dec a 0) as [->|]; [reflexivity|]. apply Z.log2_lt_pow2; lia.
  - destruct (Z.eq_dec b 0) as [->|]; [reflexivity|]. apply Z.log2_lt_pow2; lia.
Qed.

Lemma lxor_cancel_l a b : Z.lxor a (Z.lxor a b) = b.
Proof. rewrite <- Z.lxor_assoc, Z.lxor_nilpotent, Z.lxor_0_l. reflexivity. Qed.

Lemma lxor_cancel_r a b : Z.lxor (Z.lxor a b) b = a.
Proof. rewrite Z.lxor_assoc, Z.lxor_nilpotent, Z.lxor_0_r. reflexivity. Qed.

Lemma lxor_1_neq a : Z.lxor a 1 <> a.
Proof.
  intros H. assert (E : Z.lxor a (Z.lxor a 1) = 0) by (rewrite H; apply Z.lxor_nilpotent).
  rewrite lxor_cancel_l in E. discriminate.
Qed.

Lemma is_bytes_zip_lxor a b :
  is_bytes a -> is_bytes b -> is_bytes (zip_with Z.lxor a b).
Proof.
  unfold is_bytes. intros Ha. revert b.
  induction Ha as [|x a Hx Ha IH]; intros [|y b] Hb; simpl; try constructor.
  - apply lxor_byte; [exact Hx | exact (Forall_inv Hb)].
  - apply IH. exact (Forall_inv_tail Hb).
Qed.

Lemma xor_ok a b :
  length a = length b -> is_bytes a -> is_bytes b ->
  xor a b = Ok (zip_with Z.lxor a b).
Proof.
  intros Hl Ha Hb. unfold xor. rewrite decide_True by exact Hl.
  apply bytes_of_ok, is_bytes_zip_lxor; assumption.
Qed.

Lemma is_bytes_replicate n x : is_byte x -> is_bytes (replicate n x).
Proof. intros H. apply Forall_replicate. exact H. Qed.

Lemma is_bytes_insert l i x : is_bytes l -> is_byte x -> is_bytes (<[i:=x]> l).
Proof. intros Hl Hx. apply Forall_insert; assumption. Qed.

Lemma BLOCKSIZE_eq : BLOCKSIZE = 16%nat.
Proof. reflexivity. Qed.

(** The pad value [BLOCKSIZE - i] is a byte. *)
Lemma pad_value_byte i : is_byte (Z.of_nat (BLOCKSIZE - i)).
Proof. unfold is_byte. pose proof BLOCKSIZE_eq. lia. Qed.

(** ** Laws of the two monads *)

Lemma traced_eta {A} (t : traced A) : Traced (outcome t) (queries t) = t.
Proof. destruct t; reflexivity. Qed.

Lemma bind_lift_Ok {A B} (a : A) (f : A -> traced B) :
  lift (Ok a) ≫= f = f a.
Proof. unfold mbind, traced_bind, lift; simpl. apply traced_eta. Qed.

Lemma bind_lift_Raise {A B} (e : exn) (f : A -> traced B) :
  lift (Raise e) ≫= f = lift (Raise e).
Proof. reflexivity. Qed.

Lemma outcome_bind {A B} (m : traced A) (f : A -> traced B) :
  outcome (m ≫= f) =
  match outcome m with Ok a => outcome (f a) | Raise e => Raise e end.
Proof. unfold mbind, traced_bind. destruct (outcome m); reflexivity. Qed.

Lemma queries_bind {A B} (m : traced A) (f : A -> traced B) :
  queries (m ≫= f) =
  queries m ++ match outcome m with Ok a => queries (f a) | Raise _ => [] end.
Proof.
  unfold mbind, traced_bind. destruct (outcome m); simpl; [reflexivity|].
  rewrite app_nil_r. reflexivity.
Qed.

Lemma bind_mret {A B} (a : A) (f : A -> traced B) : mret a ≫= f = f a.
Proof. apply (bind_lift_Ok a f). Qed.

Lemma bind_ext {A B} (m : traced A) (f g : A -> traced B) :
  (forall a, f a = g a) -> m ≫= f = m ≫= g.
Proof.
  intros H. unfold mbind, traced_bind.
  destruct (outcome m) as [a|e]; [rewrite H|]; reflexivity.
Qed.

Lemma bind_assoc {A B C} (m : traced A) (f : A -> traced B) (g : B -> traced C) :
  (m ≫= f) ≫= g = m ≫= (fun a => f a ≫= g).
Proof.
  destruct m as [[a|e] q]; unfold mbind, traced_bind; simpl; [|reflexivity].
  destruct (f a) as [[b|e] q']; simpl; [|reflexivity].
  rewrite app_assoc. reflexivity.
Qed.

(** ** The shape of the two IVs *)

Lemma probe_iv_ok i g (iv_list : list Z) :
  length iv_list = BLOCKSIZE -> is_bytes iv_list -> is_byte g ->
  probe_iv i g iv_list =
  Ok (take i iv_list ++ [g] ++
      zip_with Z.lxor (drop (i + 1) iv_list)
        (replicate (BLOCKSIZE - (i + 1)) (Z.of_nat (BLOCKSIZE - i)))).
Proof.
  intros Hlen Hb Hg. unfold probe_iv.
  rewrite bytes_of_ok by (apply Forall_take, Hb). simpl.
  rewrite to_bytes1_ok by exact Hg. simpl.
  rewrite xor_ok.
  - reflexivity.
  - rewrite length_drop, length_replicate. lia.
  - apply Forall_drop, Hb.
  - apply is_bytes_replicate, pad_value_byte.
Qed.

Lemma probe_iv_length i g (iv_list iv1 : list Z) :
  length iv_list = BLOCKSIZE -> (i < BLOCKSIZE)%nat ->
  probe_iv i g iv_list = Ok iv1 -> length iv1 = BLOCKSIZE.
Proof.
  intros Hlen Hi. unfold probe_iv, xor.
  destruct (bytes_of (take i iv_list)) as [pre|] eqn:E1; [|discriminate]. simpl.
  destruct (to_bytes1 g) as [gb|] eqn:E2; [|discriminate]. simpl.
  case_decide as Hl; [|discriminate].
  destruct (bytes_of (zip_with _ _ _)) as [suf|] eqn:E3; [|discriminate]. simpl.
  intros [= <-].
  apply bytes_of_inv in E1 as [-> _]. apply bytes_of_inv in E3 as [-> _].
  unfold to_bytes1 in E2. destruct (is_byteb g); [|discriminate]. injection E2 as <-.
  rewrite !length_app, length_take, length_zip_with, length_drop, length_replicate.
  simpl. lia.
Qed.

Lemma probe_iv_bytes i g (iv_list iv1 : list Z) :
  probe_iv i g iv_list = Ok iv1 -> is_bytes iv1.
Proof.
  unfold probe_iv, xor.
  destruct (bytes_of (take i iv_list)) as [pre|] eqn:E1; [|discriminate]. simpl.
  destruct (to_bytes1 g) as [gb|] eqn:E2; [|discriminate]. simpl.
  case_decide as Hl; [|discriminate].
  destruct (bytes_of (zip_with _ _ _)) as [suf|] eqn:E3; [|discriminate]. simpl.
  intros [= <-].
  apply bytes_of_inv in E1 as [-> H1]. apply bytes_of_inv in E3 as [-> H3].
  unfold to_bytes1 in E2. destruct (is_byteb g) eqn:Eg; [|discriminate]. injection E2 as <-.
  apply is_byteb_true in Eg.
  unfold is_bytes. rewrite !Forall_app. repeat split; try assumption.
  constructor; [exact Eg | constructor].
Qed.

Lemma confirm_iv_ok i (iv1 : list Z) x :
  iv1 !! (i - 1)%nat = Some x ->
  confirm_iv i iv1 =
  Ok (take (i - 1) iv1 ++ [(x + 1) `mod` 256] ++ drop ((i - 1) + 1) iv1).
Proof.
  intros Hx. unfold confirm_iv, getitem. rewrite Hx. simpl.
  rewrite to_bytes1_ok; [reflexivity|].
  unfold is_byte. apply Z.mod_pos_bound. lia.
Qed.

(** ** One iteration of the guess loop *)

Section AttackFacts.

Variable oracle : list Z -> list Z -> result (list Z * bool).

(** The value stored in [iv_list[i]] when guess [g] is accepted. *)
Local Abbreviation accepted_byte i g := (Z.lxor g (Z.of_nat (BLOCKSIZE - i))).

Lemma guess_loop_nil block i iv_list :
  guess_loop oracle block i iv_list [] = Traced (Raise (SystemExit 1)) [].
Proof. reflexivity. Qed.

Lemma guess_loop_probe_Raise block i iv_list g gs e :
  probe_iv i g iv_list = Raise e ->
  guess_loop oracle block i iv_list (g :: gs) = Traced (Raise e) [].
Proof. intros H. simpl. rewrite H. reflexivity. Qed.

Lemma guess_loop_step block i iv_list g gs iv1 :
  probe_iv i g iv_list = Ok iv1 ->
  guess_loop oracle block i iv_list (g :: gs) =
  match oracle block iv1 with
  | Raise e => Traced (Raise e) [(block, iv1)]
  | Ok (_, false) =>
      let t := guess_loop oracle block i iv_list gs in
      Traced (outcome t) ((block, iv1) :: queries t)
  | Ok (_, true) =>
      if decide (i = (BLOCKSIZE - 1)%nat) then
        match confirm_iv i iv1 with
        | Raise e => Traced (Raise e) [(block, iv1)]
        | Ok iv2 =>
            match oracle block iv2 with
            | Raise e => Traced (Raise e) [(block, iv1); (block, iv2)]
            | Ok (_, false) =>
                let t := guess_loop oracle block i iv_list gs in
                Traced (outcome t) ((block, iv1) :: (block, iv2) :: queries t)
            | Ok (_, true) =>
                Traced (setitem iv_list i (accepted_byte i g))
                       [(block, iv1); (block, iv2)]
            end
        end
      else Traced (setitem iv_list i (accepted_byte i g)) [(block, iv1)]
  end.
Proof.
  intros Hp. cbn [guess_loop]. rewrite Hp, bind_lift_Ok.
  unfold decrypt_check_call, mbind, traced_bind, lift; simpl.
  destruct (oracle block iv1) as [[dk [|]]|e]; simpl; try reflexivity.
  case_decide as Hi; simpl; [|reflexivity].
  destruct (confirm_iv i iv1) as [iv2|e]; simpl; [|reflexivity].
  destruct (oracle block iv2) as [[dk2 [|]]|e]; simpl; reflexivity.
Qed.

Lemma is_bytes_guesses : Forall is_byte guesses.
Proof.
  apply Forall_forall. intros g Hg. apply elem_of_seqZ in Hg.
  unfold is_byte. lia.
Qed.

Lemma setitem_ok (l : list Z) i v :
  (i < length l)%nat -> setitem l i v = Ok (<[i:=v]> l).
Proof. intros H. unfold setitem. rewrite decide_True by exact H. reflexivity. Qed.

(** A successful guess loop has stored one accepted byte at index [i]
    and has changed nothing else. *)
Lemma guess_loop_outcome_Ok block i (iv_list iv_list' : list Z) gs :
  length iv_list = BLOCKSIZE -> is_bytes iv_list -> (i < BLOCKSIZE)%nat ->
  Forall is_byte gs ->
  outcome (guess_loop oracle block i iv_list gs) = Ok iv_list' ->
  exists g, g ∈ gs /\ iv_list' = <[i:=accepted_byte i g]> iv_list.
Proof.
  intros Hlen Hb Hi Hgs. induction Hgs as [|g gs Hg Hgs IH]; [discriminate|].
  rewrite (guess_loop_step _ _ _ _ _ _ (probe_iv_ok i g _ Hlen Hb Hg)).
  assert (Hset : setitem iv_list i (accepted_byte i g)
                 = Ok (<[i:=accepted_byte i g]> iv_list))
    by (apply setitem_ok; lia).
  assert (Hrec : outcome (guess_loop oracle block i iv_list gs) = Ok iv_list' ->
                 exists g0, g0 ∈ g :: gs /\ iv_list' = <[i:=accepted_byte i g0]> iv_list).
  { intros H. destruct (IH H) as (g0 & Hin & ->). exists g0. split; [|reflexivity].
    apply elem_of_cons. right. exact Hin. }
  assert (Hacc : Ok (<[i:=accepted_byte i g]> iv_list) = Ok iv_list' ->
                 exists g0, g0 ∈ g :: gs /\ iv_list' = <[i:=accepted_byte i g0]> iv_list).
  { intros [= <-]. exists g. split; [apply elem_of_cons; left|]; reflexivity. }
  destruct (oracle block _) as [[dk [|]]|e]; simpl; [| exact Hrec | discriminate].
  case_decide; simpl; [| rewrite Hset; exact Hacc].
  destruct (confirm_iv i _) as [iv2|e]; simpl; [|discriminate].
  destruct (oracle block iv2) as [[dk2 [|]]|e]; simpl;
    [rewrite Hset; exact Hacc | exact Hrec | discriminate].
Qed.

Lemma guess_loop_queries_le block i (iv_list : list Z) gs :
  (length (queries (guess_loop oracle block i iv_list gs))
   <= calls_per_guess i * length gs)%nat.
Proof.
  induction gs as [|g gs IH]; [simpl; lia|].
  destruct (probe_iv i g iv_list) as [iv1|e] eqn:Hp.
  2:{ rewrite (guess_loop_probe_Raise _ _ _ _ _ _ Hp). simpl. lia. }
  rewrite (guess_loop_step _ _ _ _ _ _ Hp).
  unfold calls_per_guess in *.
  destruct (decide (i = (BLOCKSIZE - 1)%nat)) as [Hi|Hi];
    destruct (oracle block iv1) as [[dk [|]]|e]; simpl; try lia.
  destruct (confirm_iv i iv1) as [iv2|e]; simpl; [|lia].
  destruct (oracle block iv2) as [[dk2 [|]]|e]; simpl; lia.
Qed.

Lemma byte_loop_cons block i idxs (iv_list : list Z) :
  byte_loop oracle block (i :: idxs) iv_list =
  guess_loop oracle block i iv_list guesses ≫= byte_loop oracle block idxs.
Proof. reflexivity. Qed.

Lemma byte_loop_app block idxs1 idxs2 (iv_list : list Z) :
  byte_loop oracle block (idxs1 ++ idxs2) iv_list =
  byte_loop oracle block idxs1 iv_list ≫= byte_loop oracle block idxs2.
Proof.
  revert iv_list. induction idxs1 as [|i idxs1 IH]; intros iv_list;
    cbn [byte_loop app].
  - unfold mret, traced_ret. change (Traced (Ok iv_list) []) with (lift (Ok iv_list)).
    rewrite bind_lift_Ok. reflexivity.
  - unfold mbind, traced_bind.
    destruct (guess_loop oracle block i iv_list guesses) as [[d|e] q]; simpl;
      [|reflexivity].
    rewrite IH. unfold mbind, traced_bind.
    destruct (byte_loop oracle block idxs1 d) as [[d'|e] q']; simpl; [|reflexivity].
    rewrite app_assoc. reflexivity.
Qed.

(** ** The outer loop *)

Lemma indices_split i :
  (i < BLOCKSIZE)%nat -> indices = indices_before i ++ i :: indices_after i.
Proof.
  intros Hi. unfold indices, indices_before, indices_after.
  replace BLOCKSIZE with (i + S (BLOCKSIZE - S i))%nat at 1 by lia.
  rewrite seq_app, reverse_app. simpl. rewrite reverse_cons, <- app_assoc.
  reflexivity.
Qed.

Lemma indices_after_S i : indices_after (S i) = i :: indices_after i.
Proof. unfold indices_after. rewrite seq_S, reverse_snoc. reflexivity. Qed.

Lemma indices_before_lt i k : k ∈ indices_before i -> (i < k < BLOCKSIZE)%nat.
Proof.
  unfold indices_before. rewrite elem_of_reverse, elem_of_seq. lia.
Qed.

Lemma indices_after_lt i k : k ∈ indices_after i -> (k < i)%nat.
Proof.
  unfold indices_after. rewrite elem_of_reverse, elem_of_seq. lia.
Qed.

(** The outer loop keeps the length of [iv_list], keeps it a list of
    bytes, and writes only at the indices it processes. *)
Lemma byte_loop_inv block idxs (iv_list iv_list' : list Z) :
  length iv_list = BLOCKSIZE -> is_bytes iv_list ->
  Forall (fun i => (i < BLOCKSIZE)%nat) idxs ->
  outcome (byte_loop oracle block idxs iv_list) = Ok iv_list' ->
  length iv_list' = BLOCKSIZE /\ is_bytes iv_list' /\
  forall j, j ∉ idxs -> iv_list' !! j = iv_list !! j.
Proof.
  intros Hlen Hb Hidx. revert iv_list Hlen Hb.
  induction Hidx as [|i idxs Hi Hidx IH]; intros iv_list Hlen Hb.
  - simpl. intros [= <-]. auto.
  - cbn [byte_loop]. rewrite outcome_bind.
    destruct (outcome (guess_loop oracle block i iv_list guesses)) as [d|e] eqn:Hg;
      [|discriminate].
    destruct (guess_loop_outcome_Ok _ _ _ _ _ Hlen Hb Hi is_bytes_guesses Hg)
      as (g & Hin & ->).
    intros Hrest.
    assert (Hgb : is_byte g) by exact (proj1 (Forall_forall _ _) is_bytes_guesses g Hin).
    destruct (IH (<[i:=accepted_byte i g]> iv_list)) as (H1 & H2 & H3).
    + rewrite length_insert. exact Hlen.
    + apply is_bytes_insert; [exact Hb|]. apply lxor_byte; [exact Hgb | apply pad_value_byte].
    + exact Hrest.
    + repeat split; [exact H1 | exact H2 |].
      intros j Hj. rewrite not_elem_of_cons in Hj. destruct Hj as [Hji Hj].
      rewrite (H3 j Hj). apply list_lookup_insert_ne. congruence.
Qed.

(** The state in which the Recoverer starts index [i]: the bytes up to
    [i] are still zero. *)
Lemma state_before_inv block i (iv_list : list Z) :
  (i < BLOCKSIZE)%nat ->
  outcome (byte_loop oracle block (indices_before i) (replicate BLOCKSIZE 0))
    = Ok iv_list ->
  length iv_list = BLOCKSIZE /\ is_bytes iv_list /\
  forall k, (k <= i)%nat -> iv_list !! k = Some 0.
Proof.
  intros Hi H. apply byte_loop_inv in H as (H1 & H2 & H3).
  - repeat split; [exact H1 | exact H2 |]. intros k Hk. rewrite H3.
    + apply lookup_replicate_2. lia.
    + intros Hin. apply indices_before_lt in Hin. lia.
  - apply length_replicate.
  - apply is_bytes_replicate. unfold is_byte. lia.
  - apply Forall_forall. intros k Hk. apply indices_before_lt in Hk. lia.
Qed.

(** Lookups in the candidate IV. *)
Lemma probe_iv_lookup i g (iv_list iv1 : list Z) :
  length iv_list = BLOCKSIZE -> (i < BLOCKSIZE)%nat ->
  probe_iv i g iv_list = Ok iv1 ->
  (forall k, (k < i)%nat -> iv1 !! k = iv_list !! k) /\
  iv1 !! i = Some g /\
  (forall j, (i < j < BLOCKSIZE)%nat ->
     exists d, iv_list !! j = Some d /\
               iv1 !! j = Some (Z.lxor d (Z.of_nat (BLOCKSIZE - i)))).
Proof.
  intros Hlen Hi. unfold probe_iv, xor.
  destruct (bytes_of (take i iv_list)) as [pre|] eqn:E1; [|discriminate]. simpl.
  destruct (to_bytes1 g) as [gb|] eqn:E2; [|discriminate]. simpl.
  case_decide as Hl; [|discriminate].
  destruct (bytes_of (zip_with _ _ _)) as [suf|] eqn:E3; [|discriminate]. simpl.
  intros [= <-].
  apply bytes_of_inv in E1 as [-> _]. apply bytes_of_inv in E3 as [-> _].
  unfold to_bytes1 in E2. destruct (is_byteb g); [|discriminate]. injection E2 as <-.
  assert (Hlt : length (take i iv_list) = i) by (rewrite length_take; lia).
  repeat split.
  - intros k Hk. rewrite lookup_app_l by lia. apply lookup_take_lt. exact Hk.
  - rewrite lookup_app_r by lia. rewrite Hlt, Nat.sub_diag. reflexivity.
  - intros j Hj. destruct (lookup_lt_is_Some_2 iv_list j) as [d Hd]; [lia|].
    exists d. split; [exact Hd|].
    rewrite lookup_app_r by lia. rewrite Hlt.
    replace (j - i)%nat with (S (j - i - 1)) by lia. simpl.
    rewrite lookup_zip_with, lookup_drop.
    replace (i + 1 + (j - i - 1))%nat with j by lia. rewrite Hd. simpl.
    rewrite lookup_replicate_2 by lia. reflexivity.
Qed.

(** ** The probe IV *)

(** C2.  Let [iv_list] be the state in which the Recoverer starts index
    [i < BLOCKSIZE] (the indices above [i] are done), and [g] a guess in
    0..255.  The IV sent to the oracle for [g] has length [BLOCKSIZE], is
    zero before index [i], is [g] at index [i], and at every [j > i] is
    [iv_list[j] XOR (BLOCKSIZE - i)]. *)
Theorem C2_probe_iv_shape block i g (iv_list : list Z) :
  (i < BLOCKSIZE)%nat -> is_byte g ->
  outcome (byte_loop oracle block (indices_before i) (replicate BLOCKSIZE 0))
    = Ok iv_list ->
  exists iv1,
    probe_iv i g iv_list = Ok iv1 /\
    (forall gs,
       head (queries (guess_loop oracle block i iv_list (g :: gs)))
       = Some (block, iv1)) /\
    length iv1 = BLOCKSIZE /\
    (forall k, (k < i)%nat -> iv1 !! k = Some 0) /\
    iv1 !! i = Some g /\
    (forall j, (i < j < BLOCKSIZE)%nat ->
       exists d, iv_list !! j = Some d /\
                 iv1 !! j = Some (Z.lxor d (Z.of_nat (BLOCKSIZE - i)))).
Proof.
  intros Hi Hg Hst.
  destruct (state_before_inv _ _ _ Hi Hst) as (Hlen & Hb & Hz).
  pose proof (probe_iv_ok i g _ Hlen Hb Hg) as Hp.
  eexists. split; [exact Hp|].
  destruct (probe_iv_lookup _ _ _ _ Hlen Hi Hp) as (L1 & L2 & L3).
  repeat split.
  - intros gs. rewrite (guess_loop_step _ _ _ _ _ _ Hp).
    destruct (oracle block _) as [[dk [|]]|e]; simpl; try reflexivity.
    case_decide; simpl; [|reflexivity].
    destruct (confirm_iv i _) as [iv2|e]; simpl; [|reflexivity].
    destruct (oracle block iv2) as [[dk2 [|]]|e]; reflexivity.
  - exact (probe_iv_length _ _ _ _ Hlen Hi Hp).
  - intros k Hk. rewrite L1 by exact Hk. apply Hz. lia.
  - exact L2.
  - exact L3.
Qed.

(** ** The last index: the confirmation probe *)

Lemma take_drop_insert (l : list Z) n v :
  (n < length l)%nat -> take n l ++ [v] ++ drop (n + 1) l = <[n:=v]> l.
Proof.
  intros H. rewrite Nat.add_1_r. symmetry. apply insert_take_drop. exact H.
Qed.

(** C3.  At the last index [i = BLOCKSIZE - 1], when the oracle reports
    valid padding for the IV [iv1] of guess [g], there is exactly one
    further call, with an IV [iv2] that is [iv1] except at index [i - 1],
    where the byte is incremented modulo 256.  If that call reports valid
    padding the loop stops with [iv_list[i] = g XOR 1]; if it reports
    invalid padding the loop goes on with the remaining guesses at the same
    index and the same [iv_list]. *)
Theorem C3_last_byte_confirmation block i g gs (iv_list iv1 dk : list Z) :
  i = (BLOCKSIZE - 1)%nat ->
  length iv_list = BLOCKSIZE ->
  probe_iv i g iv_list = Ok iv1 ->
  oracle block iv1 = Ok (dk, true) ->
  exists iv2 x,
    confirm_iv i iv1 = Ok iv2 /\
    iv1 !! (i - 1)%nat = Some x /\
    iv2 !! (i - 1)%nat = Some ((x + 1) `mod` 256) /\
    length iv2 = length iv1 /\
    (forall k, k <> (i - 1)%nat -> iv2 !! k = iv1 !! k) /\
    (forall dk2, oracle block iv2 = Ok (dk2, true) ->
       guess_loop oracle block i iv_list (g :: gs) =
       Traced (Ok (<[i:=Z.lxor g 1]> iv_list)) [(block, iv1); (block, iv2)]) /\
    (forall dk2, oracle block iv2 = Ok (dk2, false) ->
       guess_loop oracle block i iv_list (g :: gs) =
       Traced (outcome (guess_loop oracle block i iv_list gs))
              ((block, iv1) :: (block, iv2)
                 :: queries (guess_loop oracle block i iv_list gs))).
Proof.
  intros Hi Hlen Hp Hv.
  assert (Hi' : (i < BLOCKSIZE)%nat) by (pose proof BLOCKSIZE_eq; lia).
  pose proof (probe_iv_length _ _ _ _ Hlen Hi' Hp) as Hl1.
  destruct (lookup_lt_is_Some_2 iv1 (i - 1)) as [x Hx]; [lia|].
  pose proof (confirm_iv_ok i iv1 x Hx) as Hc.
  rewrite take_drop_insert in Hc by lia.
  exists (<[(i - 1)%nat:=(x + 1) `mod` 256]> iv1), x.
  repeat split.
  - exact Hc.
  - exact Hx.
  - apply list_lookup_insert_eq. lia.
  - apply length_insert.
  - intros k Hk. apply list_lookup_insert_ne. congruence.
  - intros dk2 Hv2. rewrite (guess_loop_step _ _ _ _ _ _ Hp), Hv.
    rewrite decide_True by exact Hi. rewrite Hc, Hv2.
    rewrite setitem_ok by lia.
    replace (Z.of_nat (BLOCKSIZE - i)) with 1 by (pose proof BLOCKSIZE_eq; lia).
    reflexivity.
  - intros dk2 Hv2. rewrite (guess_loop_step _ _ _ _ _ _ Hp), Hv.
    rewrite decide_True by exact Hi. rewrite Hc, Hv2. reflexivity.
Qed.

(** ** Guesses in ascending order *)

(** Guesses whose IV the oracle reports invalid are passed over, at the
    price of one call each. *)
Lemma guess_loop_skip block i (iv_list : list Z) gs1 gs2 :
  Forall (fun g => exists iv1 dk, probe_iv i g iv_list = Ok iv1 /\
                                 oracle block iv1 = Ok (dk, false)) gs1 ->
  exists qs, probes_of block i iv_list gs1 qs /\
    guess_loop oracle block i iv_list (gs1 ++ gs2) =
    Traced (outcome (guess_loop oracle block i iv_list gs2))
           (qs ++ queries (guess_loop oracle block i iv_list gs2)).
Proof.
  induction 1 as [|g gs1 (iv1 & dk & Hp & Hv) _ (qs & Hqs & IH)].
  - exists []. split; [constructor|]. simpl. symmetry. apply traced_eta.
  - exists ((block, iv1) :: qs). split.
    + constructor; [|exact Hqs]. exists iv1. auto.
    + simpl app. rewrite (guess_loop_step _ _ _ _ _ _ Hp), Hv. simpl.
      rewrite IH. reflexivity.
Qed.

Lemma guesses_split g :
  0 <= g < 256 -> guesses = seqZ 0 g ++ g :: seqZ (g + 1) (255 - g).
Proof.
  intros Hg. unfold guesses.
  replace 256 with (g + (256 - g)) by lia.
  rewrite seqZ_app by lia. f_equal.
  rewrite seqZ_cons by lia.
  replace (0 + g) with g by lia.
  replace (Z.succ g) with (g + 1) by lia.
  replace (Z.pred (256 - g)) with (255 - g) by lia.
  reflexivity.
Qed.

(** C4.  At an index [i] other than the last, let [g] be the least guess
    in 0..255 for which the oracle reports valid padding.  The guess loop
    makes exactly the calls for the guesses 0, 1, ..., [g], in that order,
    and none else, stops with [iv_list[i] = g XOR (BLOCKSIZE - i)], and the
    outer loop goes on with the next index, which is [i - 1]. *)
Theorem C4_first_valid_guess_wins block i g idxs (iv_list : list Z) :
  length iv_list = BLOCKSIZE -> is_bytes iv_list ->
  (i < BLOCKSIZE)%nat -> i <> (BLOCKSIZE - 1)%nat ->
  0 <= g < 256 ->
  (forall g' iv1, 0 <= g' < g -> probe_iv i g' iv_list = Ok iv1 ->
     exists dk, oracle block iv1 = Ok (dk, false)) ->
  (forall iv1, probe_iv i g iv_list = Ok iv1 ->
     exists dk, oracle block iv1 = Ok (dk, true)) ->
  exists qs,
    probes_of block i iv_list (seqZ 0 (g + 1)) qs /\
    guess_loop oracle block i iv_list guesses =
      Traced (Ok (<[i:=Z.lxor g (Z.of_nat (BLOCKSIZE - i))]> iv_list)) qs /\
    byte_loop oracle block (i :: idxs) iv_list =
      (let rest := byte_loop oracle block idxs
                     (<[i:=Z.lxor g (Z.of_nat (BLOCKSIZE - i))]> iv_list) in
       Traced (outcome rest) (qs ++ queries rest)) /\
    (forall i', i = S i' ->
       exists pre post, indices = pre ++ i :: i' :: post).
Proof.
  intros Hlen Hb Hi Hnl Hg Hlow Hval.
  pose proof (probe_iv_ok i g _ Hlen Hb Hg) as Hp.
  destruct (Hval _ Hp) as [dk Hv].
  destruct (guess_loop_skip block i iv_list (seqZ 0 g) (g :: seqZ (g + 1) (255 - g)))
    as (qs & Hqs & Hrun).
  { apply Forall_forall. intros g' Hg'. apply elem_of_seqZ in Hg'.
    assert (Hb' : is_byte g') by (unfold is_byte; lia).
    pose proof (probe_iv_ok i g' _ Hlen Hb Hb') as Hp'.
    destruct (Hlow g' _ ltac:(lia) Hp') as [dk' Hv']. eauto. }
  rewrite <- guesses_split in Hrun by exact Hg.
  rewrite (guess_loop_step _ _ _ _ _ _ Hp), Hv in Hrun.
  rewrite decide_False in Hrun by exact Hnl.
  rewrite setitem_ok in Hrun by lia. cbn [outcome queries] in Hrun.
  eexists. split; [|split; [exact Hrun | split]].
  - unfold probes_of. rewrite seqZ_app by lia.
    apply Forall2_app; [exact Hqs|].
    change (seqZ (0 + g) 1) with [0 + g]. rewrite Z.add_0_l.
    constructor; [|constructor]. eauto.
  - cbn [byte_loop]. rewrite Hrun. unfold mbind, traced_bind. simpl. reflexivity.
  - intros i' ->. exists (indices_before (S i')), (indices_after i').
    rewrite (indices_split (S i')) by exact Hi. rewrite indices_after_S. reflexivity.
Qed.

(** ** Exhaustion *)

Lemma guess_loop_exhausted block i (iv_list : list Z) gs :
  Forall (guess_rejected oracle block i iv_list) gs ->
  outcome (guess_loop oracle block i iv_list gs) = Raise (SystemExit 1).
Proof.
  induction 1 as [|g gs (iv1 & Hp & Hrej) _ IH]; [reflexivity|].
  rewrite (guess_loop_step _ _ _ _ _ _ Hp).
  destruct Hrej as [[dk Hv] | (Hi & dk & iv2 & dk2 & Hv & Hc & Hv2)].
  - rewrite Hv. exact IH.
  - rewrite Hv, decide_True by exact Hi. rewrite Hc, Hv2. exact IH.
Qed.

Lemma driver_loop_Raise blocks block plain prev_block e :
  outcome (attack_single_block oracle prev_block block) = Raise e ->
  driver_loop oracle (block :: blocks) plain prev_block =
  Traced (Raise e) (queries (attack_single_block oracle prev_block block)).
Proof.
  intros H. cbn [driver_loop]. unfold mbind, traced_bind. rewrite H. reflexivity.
Qed.

Lemma driver_loop_no_partial_success blocks block plain prev_block res :
  (forall prev, exists e,
     outcome (attack_single_block oracle prev block) = Raise e) ->
  block ∈ blocks ->
  outcome (driver_loop oracle blocks plain prev_block) <> Ok res.
Proof.
  intros Hfail Hin. revert plain prev_block.
  induction blocks as [|b blocks IH]; intros plain prev_block.
  - apply elem_of_nil in Hin. destruct Hin.
  - cbn [driver_loop]. rewrite outcome_bind.
    destruct (outcome (attack_single_block oracle prev_block b)) as [pb|e] eqn:Hb;
      [|discriminate].
    apply elem_of_cons in Hin as [->|Hin].
    + destruct (Hfail prev_block) as [e He]. congruence.
    + apply IH. exact Hin.
Qed.

(** C5.  If, in the state in which the Recoverer starts some index [i],
    none of the guesses 0..255 is accepted, then the attack on the block
    ends in [exit(1)]: no plaintext is returned.  The driver ends in the
    same [exit(1)] without a further oracle call, and a run of the driver
    over a ciphertext that contains the block never returns a result. *)
Theorem C5_exhaustion_is_fatal iv block i (iv_list : list Z) :
  (i < BLOCKSIZE)%nat ->
  outcome (byte_loop oracle block (indices_before i) (replicate BLOCKSIZE 0))
    = Ok iv_list ->
  (forall g, 0 <= g < 256 -> guess_rejected oracle block i iv_list g) ->
  outcome (attack_single_block oracle iv block) = Raise (SystemExit 1) /\
  (forall rest plain,
     driver_loop oracle (block :: rest) plain iv =
     Traced (Raise (SystemExit 1))
            (queries (attack_single_block oracle iv block))) /\
  (forall iv0 ct res,
     block ∈ split_blocks ct -> outcome (driver oracle iv0 ct) <> Ok res).
Proof.
  intros Hi Hst Hrej.
  assert (Hfail : forall prev,
            outcome (attack_single_block oracle prev block) = Raise (SystemExit 1)).
  { intros prev. unfold attack_single_block.
    rewrite outcome_bind, (indices_split i Hi), byte_loop_app, outcome_bind, Hst.
    cbn [byte_loop]. rewrite outcome_bind, guess_loop_exhausted; [reflexivity|].
    apply Forall_forall. intros g Hg. apply elem_of_seqZ in Hg. apply Hrej. lia. }
  split; [apply Hfail | split].
  - intros rest plain. apply driver_loop_Raise, Hfail.
  - intros iv0 ct res Hin. unfold driver.
    apply driver_loop_no_partial_success with (block := block); [|exact Hin].
    intros prev. eauto.
Qed.

(** ** The intermediate array *)

(** Every call of the guess loop at index [i] is on [block], with an IV
    that holds [iv_list[j] XOR (BLOCKSIZE - i)] at each [j > i]. *)
Lemma guess_loop_queries_suffix block i (iv_list : list Z) gs :
  length iv_list = BLOCKSIZE -> (i < BLOCKSIZE)%nat ->
  Forall (fun q : query =>
            q.1 = block /\
            forall j, (i < j < BLOCKSIZE)%nat ->
              exists d, iv_list !! j = Some d /\
                        q.2 !! j = Some (Z.lxor d (Z.of_nat (BLOCKSIZE - i))))
         (queries (guess_loop oracle block i iv_list gs)).
Proof.
  intros Hlen Hi. induction gs as [|g gs IH]; [constructor|].
  destruct (probe_iv i g iv_list) as [iv1|e] eqn:Hp.
  2:{ rewrite (guess_loop_probe_Raise _ _ _ _ _ _ Hp). constructor. }
  rewrite (guess_loop_step _ _ _ _ _ _ Hp).
  destruct (probe_iv_lookup _ _ _ _ Hlen Hi Hp) as (_ & _ & L3).
  assert (H1 : (fun q : query =>
            q.1 = block /\
            forall j, (i < j < BLOCKSIZE)%nat ->
              exists d, iv_list !! j = Some d /\
                        q.2 !! j = Some (Z.lxor d (Z.of_nat (BLOCKSIZE - i))))
            (block, iv1)) by (split; [reflexivity | exact L3]).
  assert (H2 : forall iv2, i = (BLOCKSIZE - 1)%nat ->
            (fun q : query =>
            q.1 = block /\
            forall j, (i < j < BLOCKSIZE)%nat ->
              exists d, iv_list !! j = Some d /\
                        q.2 !! j = Some (Z.lxor d (Z.of_nat (BLOCKSIZE - i))))
            (block, iv2)) by (intros iv2 ->; split; [reflexivity | intros j Hj; lia]).
  destruct (oracle block iv1) as [[dk [|]]|e]; cbn [queries];
    [| constructor; assumption | repeat constructor; assumption].
  case_decide as Hl; [|repeat constructor; assumption].
  destruct (confirm_iv i iv1) as [iv2|e]; [|repeat constructor; assumption].
  destruct (oracle block iv2) as [[dk2 [|]]|e]; cbn [queries];
    repeat (constructor; auto).
Qed.

(** C8.  Let the Recoverer start index [i] in state [iv_list] and solve
    it, reaching [iv_list1]; let it then process any further indices, all
    below [i], reaching [iv_list2].  Byte [i], once set, is kept; the bytes
    above [i], set before, are kept too; and every IV sent while index [i]
    is being solved holds [iv_list[j] XOR (BLOCKSIZE - i)] at each
    [j > i]. *)
Theorem C8_recovered_bytes_kept_and_used block i idxs
    (iv_list iv_list1 iv_list2 : list Z) :
  (i < BLOCKSIZE)%nat ->
  outcome (byte_loop oracle block (indices_before i) (replicate BLOCKSIZE 0))
    = Ok iv_list ->
  outcome (guess_loop oracle block i iv_list guesses) = Ok iv_list1 ->
  Forall (fun k => (k < i)%nat) idxs ->
  outcome (byte_loop oracle block idxs iv_list1) = Ok iv_list2 ->
  iv_list2 !! i = iv_list1 !! i /\
  (forall j, (i < j)%nat ->
     iv_list1 !! j = iv_list !! j /\ iv_list2 !! j = iv_list !! j) /\
  (forall q, q ∈ queries (guess_loop oracle block i iv_list guesses) ->
     q.1 = block /\
     forall j, (i < j < BLOCKSIZE)%nat ->
       exists d, iv_list !! j = Some d /\
                 q.2 !! j = Some (Z.lxor d (Z.of_nat (BLOCKSIZE - i)))).
Proof.
  intros Hi Hst Hg Hidx Hrest.
  destruct (state_before_inv _ _ _ Hi Hst) as (Hlen & Hb & _).
  destruct (guess_loop_outcome_Ok _ _ _ _ _ Hlen Hb Hi is_bytes_guesses Hg)
    as (g & Hin & E).
  assert (Hgb : is_byte g) by exact (proj1 (Forall_forall _ _) is_bytes_guesses g Hin).
  assert (Hlen1 : length iv_list1 = BLOCKSIZE) by (rewrite E, length_insert; exact Hlen).
  assert (Hb1 : is_bytes iv_list1).
  { rewrite E. apply is_bytes_insert; [exact Hb|].
    apply lxor_byte; [exact Hgb | apply pad_value_byte]. }
  assert (Hidx' : Forall (fun k => (k < BLOCKSIZE)%nat) idxs)
    by (eapply Forall_impl; [exact Hidx | simpl; intros; lia]).
  destruct (byte_loop_inv _ _ _ _ Hlen1 Hb1 Hidx' Hrest) as (_ & _ & Hkeep).
  assert (Hnot : forall j, (i <= j)%nat -> j ∉ idxs).
  { intros j Hj Hin'. apply (proj1 (Forall_forall _ _) Hidx) in Hin'. lia. }
  split; [apply Hkeep, Hnot; lia | split].
  - intros j Hj.
    assert (E1 : iv_list1 !! j = iv_list !! j)
      by (rewrite E; apply list_lookup_insert_ne; lia).
    split; [exact E1|]. rewrite <- E1. apply Hkeep, Hnot. lia.
  - intros q Hq. revert q Hq. apply Forall_forall.
    apply guess_loop_queries_suffix; assumption.
Qed.

(** ** The number of oracle calls *)

Lemma byte_loop_queries_le block idxs (iv_list : list Z) :
  (length (queries (byte_loop oracle block idxs iv_list))
   <= sum_list_with (fun i => calls_per_guess i * 256) idxs)%nat.
Proof.
  revert iv_list. induction idxs as [|i idxs IH]; intros iv_list;
    cbn [byte_loop sum_list_with].
  - cbn [queries mret traced_ret length]. lia.
  - rewrite queries_bind, length_app.
    pose proof (guess_loop_queries_le block i iv_list guesses) as Hg.
    assert (Hlen : length guesses = 256%nat) by reflexivity.
    rewrite Hlen in Hg.
    destruct (outcome (guess_loop oracle block i iv_list guesses)) as [d|e].
    + specialize (IH d). lia.
    + cbn [length]. lia.
Qed.

(** Against any oracle an attack on one block makes at most
    [(BLOCKSIZE + 1) * 256] calls. *)
Lemma attack_queries_le iv block :
  (length (queries (attack_single_block oracle iv block))
   <= (BLOCKSIZE + 1) * 256)%nat.
Proof.
  unfold attack_single_block. rewrite queries_bind, length_app.
  pose proof (byte_loop_queries_le block indices (replicate BLOCKSIZE 0)) as H.
  assert (E : sum_list_with (fun i => (calls_per_guess i * 256)%nat) indices
              = ((BLOCKSIZE + 1) * 256)%nat) by (vm_compute; reflexivity).
  rewrite E in H.
  destruct (outcome (byte_loop oracle block indices (replicate BLOCKSIZE 0)));
    cbn [queries lift length]; lia.
Qed.

(** ** The calls of [xor] *)

Lemma confirm_iv_no_AssertionError i (iv1 : list Z) :
  confirm_iv i iv1 <> Raise AssertionError.
Proof.
  unfold confirm_iv, getitem, to_bytes1.
  destruct (iv1 !! (i - 1)%nat) as [x|]; simpl; [|discriminate].
  destruct (is_byteb _); simpl; discriminate.
Qed.

Lemma guess_loop_no_AssertionError block i (iv_list : list Z) gs :
  length iv_list = BLOCKSIZE -> is_bytes iv_list -> (i < BLOCKSIZE)%nat ->
  Forall is_byte gs ->
  (forall b v, oracle b v <> Raise AssertionError) ->
  outcome (guess_loop oracle block i iv_list gs) <> Raise AssertionError.
Proof.
  intros Hlen Hb Hi Hgs Hor. induction Hgs as [|g gs Hg Hgs IH]; [discriminate|].
  rewrite (guess_loop_step _ _ _ _ _ _ (probe_iv_ok i g _ Hlen Hb Hg)).
  rewrite setitem_ok by lia.
  destruct (oracle block _) as [[dk [|]]|e] eqn:Ho; cbn [outcome];
    [| exact IH | intros [= ->]; exact (Hor _ _ Ho)].
  case_decide; [|discriminate].
  destruct (confirm_iv i _) as [iv2|e] eqn:Hc; cbn [outcome];
    [| intros [= ->]; exact (confirm_iv_no_AssertionError _ _ Hc)].
  destruct (oracle block iv2) as [[dk2 [|]]|e] eqn:Ho2; cbn [outcome];
    [discriminate | exact IH | intros [= ->]; exact (Hor _ _ Ho2)].
Qed.

Lemma byte_loop_no_AssertionError block idxs (iv_list : list Z) :
  length iv_list = BLOCKSIZE -> is_bytes iv_list ->
  Forall (fun i => (i < BLOCKSIZE)%nat) idxs ->
  (forall b v, oracle b v <> Raise AssertionError) ->
  outcome (byte_loop oracle block idxs iv_list) <> Raise AssertionError.
Proof.
  intros Hlen Hb Hidx Hor. revert iv_list Hlen Hb.
  induction Hidx as [|i idxs Hi Hidx IH]; intros iv_list Hlen Hb; [discriminate|].
  cbn [byte_loop]. rewrite outcome_bind.
  destruct (outcome (guess_loop oracle block i iv_list guesses)) as [d|e] eqn:Hg.
  - destruct (byte_loop_inv block [i] iv_list d Hlen Hb) as (H1 & H2 & _).
    + constructor; [exact Hi | constructor].
    + cbn [byte_loop]. rewrite outcome_bind, Hg. reflexivity.
    + apply IH; assumption.
  - intros [= ->].
    exact (guess_loop_no_AssertionError _ _ _ _ Hlen Hb Hi is_bytes_guesses Hor Hg).
Qed.

Lemma indices_lt : Forall (fun i => (i < BLOCKSIZE)%nat) indices.
Proof.
  apply Forall_forall. intros k Hk. unfold indices in Hk.
  rewrite elem_of_reverse, elem_of_seq in Hk. lia.
Qed.

Lemma zero_iv_block : length (replicate BLOCKSIZE 0) = BLOCKSIZE /\
                      is_bytes (replicate BLOCKSIZE 0).
Proof.
  split; [apply length_replicate|]. apply is_bytes_replicate. unfold is_byte. lia.
Qed.

Lemma attack_no_AssertionError iv block :
  length iv = BLOCKSIZE -> is_bytes iv ->
  (forall b v, oracle b v <> Raise AssertionError) ->
  outcome (attack_single_block oracle iv block) <> Raise AssertionError.
Proof.
  intros Hlen Hiv Hor. unfold attack_single_block. rewrite outcome_bind.
  destruct zero_iv_block as [Hz1 Hz2].
  destruct (outcome (byte_loop oracle block indices (replicate BLOCKSIZE 0)))
    as [d|e] eqn:Hrun.
  - destruct (byte_loop_inv _ _ _ _ Hz1 Hz2 indices_lt Hrun) as (Hl & Hb & _).
    cbn [lift outcome]. rewrite xor_ok; [discriminate | congruence | exact Hb | exact Hiv].
  - intros [= ->].
    exact (byte_loop_no_AssertionError _ _ _ Hz1 Hz2 indices_lt Hor Hrun).
Qed.

(** C10.  When [iv] is a block, both calls of [xor] inside
    [attack_single_block] get sequences of equal length and return: the
    call that builds the IV for index [i] pairs the
    [BLOCKSIZE - (i + 1)] bytes after index [i] with as many pad bytes,
    and the final call pairs the [BLOCKSIZE] recovered bytes with [iv].
    Unless the oracle itself raises it, the attack never ends in an
    [AssertionError]. *)
Theorem C10_xor_lengths_agree iv block :
  length iv = BLOCKSIZE -> is_bytes iv ->
  (forall i (iv_list : list Z),
     (i < BLOCKSIZE)%nat ->
     outcome (byte_loop oracle block (indices_before i) (replicate BLOCKSIZE 0))
       = Ok iv_list ->
     length (drop (i + 1) iv_list) = (BLOCKSIZE - (i + 1))%nat /\
     length (replicate (BLOCKSIZE - (i + 1)) (Z.of_nat (BLOCKSIZE - i)))
       = (BLOCKSIZE - (i + 1))%nat /\
     exists suf,
       xor (drop (i + 1) iv_list)
           (replicate (BLOCKSIZE - (i + 1)) (Z.of_nat (BLOCKSIZE - i))) = Ok suf) /\
  (forall iv_list : list Z,
     outcome (byte_loop oracle block indices (replicate BLOCKSIZE 0)) = Ok iv_list ->
     length iv_list = BLOCKSIZE /\ exists plain, xor iv_list iv = Ok plain) /\
  ((forall b v, oracle b v <> Raise AssertionError) ->
   outcome (attack_single_block oracle iv block) <> Raise AssertionError).
Proof.
  intros Hlen Hiv. split; [|split].
  - intros i iv_list Hi Hst.
    destruct (state_before_inv _ _ _ Hi Hst) as (Hl & Hb & _).
    rewrite length_drop, length_replicate, Hl. split; [lia | split; [lia|]].
    eexists. apply xor_ok.
    + rewrite length_drop, length_replicate. lia.
    + apply Forall_drop, Hb.
    + apply is_bytes_replicate, pad_value_byte.
  - intros iv_list Hrun. apply byte_loop_inv in Hrun as (Hl & Hb & _).
    + split; [exact Hl|]. eexists. apply xor_ok; [congruence | exact Hb | exact Hiv].
    + apply length_replicate.
    + apply is_bytes_replicate. unfold is_byte. lia.
    + apply Forall_forall. intros k Hk. unfold indices in Hk.
      rewrite elem_of_reverse, elem_of_seq in Hk. lia.
  - intros Hor. apply attack_no_AssertionError; assumption.
Qed.

(** ** The driver *)

Lemma split_blocks_ciphertext_block (ct : list Z) :
  split_blocks ct = ciphertext_block ct <$> seq 0 (block_count ct).
Proof.
  unfold split_blocks, block_starts, block_count.
  rewrite <- list_fmap_compose. reflexivity.
Qed.

Lemma driver_loop_spec (iv ct : list Z) n j plain :
  driver_loop oracle (ciphertext_block ct <$> seq j n) plain (predecessor iv ct j) =
  mapM (fun k => attack_single_block oracle (predecessor iv ct k)
                   (ciphertext_block ct k)) (seq j n)
  ≫= fun plain_blocks => mret (plain ++ concat plain_blocks).
Proof.
  revert j plain. induction n as [|n IH]; intros j plain.
  - cbn. rewrite app_nil_r. reflexivity.
  - cbn [seq fmap list_fmap driver_loop mapM].
    rewrite bind_assoc. apply bind_ext. intros pb.
    change (ciphertext_block ct j) with (predecessor iv ct (S j)).
    rewrite IH, bind_assoc. apply bind_ext. intros pbs.
    rewrite bind_mret. cbn [concat]. rewrite app_assoc. reflexivity.
Qed.

(** C7.  The driver is the driver of the specification: the ciphertext
    is cut into consecutive blocks of [BLOCKSIZE] bytes; block [k] is
    attacked with the IV as predecessor when [k = 0] and with block
    [k - 1] otherwise; the blocks are attacked in increasing order of
    [k] (the oracle calls appear in that order); the result is the
    concatenation of the recovered blocks as they are, nothing being
    stripped from the tail. *)
Theorem C7_driver_blocks_in_order iv ct :
  driver oracle iv ct = driver_spec oracle iv ct.
Proof.
  unfold driver, driver_spec. rewrite split_blocks_ciphertext_block.
  apply (driver_loop_spec iv ct (block_count ct) 0 []).
Qed.

End AttackFacts.

(** ** The padding check *)

Lemma unpad_Raise l bs e : unpad l bs = Raise e -> e = ValueError.
Proof.
  unfold unpad, getitem.
  case_decide as H0; [congruence|]. case_decide; [congruence|].
  destruct (l !! (length l - 1)%nat) as [x|] eqn:Hx; simpl.
  - case_decide; [congruence|]. case_decide; congruence.
  - apply lookup_ge_None in Hx. lia.
Qed.

(** [unpad] accepts a block exactly when, for some [p] in
    [1, BLOCKSIZE], the last [p] bytes are [p]. *)
Lemma unpad_Ok_lookup (l : list Z) :
  length l = BLOCKSIZE ->
  (exists u, unpad l BLOCKSIZE = Ok u) <->
  (exists p : nat, (1 <= p <= BLOCKSIZE)%nat /\
     forall j, (BLOCKSIZE - p <= j < BLOCKSIZE)%nat -> l !! j = Some (Z.of_nat p)).
Proof.
  intros Hlen. unfold unpad, getitem. rewrite Hlen.
  rewrite decide_False by (pose proof BLOCKSIZE_eq; lia).
  rewrite decide_False by (intros H; apply H; reflexivity).
  destruct (lookup_lt_is_Some_2 l (BLOCKSIZE - 1)) as [x Hx];
    [pose proof BLOCKSIZE_eq; lia|].
  rewrite Hx. simpl. pose proof BLOCKSIZE_eq as HB. split.
  - intros [u Hu]. case_decide as Hr; [discriminate|]. case_decide as Hd; [discriminate|].
    exists (Z.to_nat x). split; [lia|]. intros j Hj.
    replace j with ((BLOCKSIZE - Z.to_nat x) + (j - (BLOCKSIZE - Z.to_nat x)))%nat by lia.
    rewrite <- lookup_drop, Hd, lookup_replicate_2 by lia. f_equal. lia.
  - intros (p & Hp & Hl).
    assert (x = Z.of_nat p) as ->.
    { specialize (Hl (BLOCKSIZE - 1)%nat ltac:(lia)). congruence. }
    rewrite decide_False by lia. rewrite Nat2Z.id.
    rewrite decide_False; [eauto|]. intros Hne. apply Hne. clear Hne.
    apply list_eq. intros k. rewrite lookup_drop.
    destruct (decide (k < p)%nat) as [Hk|Hk].
    + rewrite lookup_replicate_2 by exact Hk. apply Hl. lia.
    + rewrite (proj1 (lookup_replicate_None _ _ _)) by lia.
      apply lookup_ge_None. lia.
Qed.

Lemma structurally_valid_pad_lookup (l : list Z) :
  length l = BLOCKSIZE ->
  structurally_valid_pad l <->
  (exists p : nat, (1 <= p <= BLOCKSIZE)%nat /\
     forall j, (BLOCKSIZE - p <= j < BLOCKSIZE)%nat -> l !! j = Some (Z.of_nat p)).
Proof.
  intros Hlen. unfold structurally_valid_pad. rewrite Hlen. split.
  - intros (x & Hlast & Hr & Hall). exists (Z.to_nat x). split; [lia|].
    intros j Hj. rewrite Z2Nat.id by lia.
    destruct (lookup_lt_is_Some_2 l j) as [y Hy]; [lia|]. rewrite Hy. f_equal.
    rewrite Forall_lookup in Hall.
    apply (Hall (j - (BLOCKSIZE - Z.to_nat x))%nat).
    rewrite lookup_drop, <- Hy. f_equal. lia.
  - intros (p & Hp & Hl). exists (Z.of_nat p). split; [|split; [lia|]].
    + rewrite last_lookup, Hlen. apply Hl. pose proof BLOCKSIZE_eq. lia.
    + rewrite Nat2Z.id. apply Forall_lookup. intros k y. rewrite lookup_drop.
      intros Hy. assert (Hk : (BLOCKSIZE - p + k < BLOCKSIZE)%nat).
      { apply lookup_lt_Some in Hy. lia. }
      rewrite Hl in Hy by lia. congruence.
Qed.

Lemma valid_padding_lookup (l : list Z) :
  length l = BLOCKSIZE ->
  valid_padding l = true <->
  (exists p : nat, (1 <= p <= BLOCKSIZE)%nat /\
     forall j, (BLOCKSIZE - p <= j < BLOCKSIZE)%nat -> l !! j = Some (Z.of_nat p)).
Proof.
  intros Hlen. rewrite <- (unpad_Ok_lookup l Hlen). unfold valid_padding.
  destruct (unpad l BLOCKSIZE) as [u|e]; split; eauto; try discriminate.
  intros [u Hu]. discriminate.
Qed.

Lemma split_blocks_single (ct : list Z) :
  length ct = BLOCKSIZE -> split_blocks ct = [ct].
Proof.
  intros Hlen. unfold split_blocks, block_starts. rewrite Hlen.
  change (Nat.div (BLOCKSIZE + BLOCKSIZE - 1) BLOCKSIZE) with 1%nat.
  cbn [seq fmap list_fmap]. change (0 * BLOCKSIZE)%nat with 0%nat.
  rewrite drop_0, take_ge by lia. reflexivity.
Qed.

Section OracleFacts.

Variables aes_encrypt aes_decrypt : list Z -> list Z -> list Z.

(** [decrypt_check] on one block: CBC decryption and the padding check. *)
Lemma decrypt_check_block self (ct iv : list Z) :
  length ct = BLOCKSIZE -> length iv = BLOCKSIZE ->
  decrypt_check aes_decrypt self ct iv =
  Ok (zip_with Z.lxor (aes_decrypt (key self) ct) iv,
      valid_padding (zip_with Z.lxor (aes_decrypt (key self) ct) iv)).
Proof.
  intros Hct Hiv. unfold decrypt_check, AES_new, cbc_decrypt.
  rewrite decide_True by exact Hiv. cbn [mbind result_bind fst snd].
  rewrite decide_True by (rewrite Hct; reflexivity).
  rewrite split_blocks_single by exact Hct.
  cbn [cbc_decrypt_blocks mbind result_bind fst snd]. rewrite app_nil_r.
  unfold valid_padding.
  destruct (unpad _ BLOCKSIZE) as [u|e] eqn:Hu; [reflexivity|].
  apply unpad_Raise in Hu as ->. reflexivity.
Qed.

(** C6.  For a ciphertext block and an IV of [BLOCKSIZE] bytes each,
    [decrypt_check] does not raise: it returns the CBC decryption of the
    block under the given IV together with a flag, and the flag is true
    exactly when that decryption ends in a structurally valid pad (last
    byte [p] in [1, BLOCKSIZE], last [p] bytes all [p]); otherwise the
    flag is false. *)
Theorem C6_decrypt_check_flag self (ct iv : list Z) :
  is_block ct -> is_block iv ->
  length (aes_decrypt (key self) ct) = BLOCKSIZE ->
  exists valid : bool,
    decrypt_check aes_decrypt self ct iv =
      Ok (zip_with Z.lxor (aes_decrypt (key self) ct) iv, valid) /\
    (valid = true <->
     structurally_valid_pad (zip_with Z.lxor (aes_decrypt (key self) ct) iv)) /\
    (valid = false <->
     ~ structurally_valid_pad (zip_with Z.lxor (aes_decrypt (key self) ct) iv)).
Proof.
  intros [Hct _] [Hiv _] Hd.
  exists (valid_padding (zip_with Z.lxor (aes_decrypt (key self) ct) iv)).
  assert (Hl : length (zip_with Z.lxor (aes_decrypt (key self) ct) iv) = BLOCKSIZE)
    by (rewrite length_zip_with; lia).
  assert (Hiff : valid_padding (zip_with Z.lxor (aes_decrypt (key self) ct) iv) = true
                 <-> structurally_valid_pad
                       (zip_with Z.lxor (aes_decrypt (key self) ct) iv)).
  { rewrite valid_padding_lookup, structurally_valid_pad_lookup by exact Hl.
    reflexivity. }
  split; [apply decrypt_check_block; assumption | split; [exact Hiff|]].
  rewrite <- Hiff. destruct (valid_padding _); split; congruence.
Qed.

(** ** The attack against the demo oracle *)

Lemma partial_state_length (d : list Z) n :
  length d = BLOCKSIZE -> (n <= BLOCKSIZE)%nat ->
  length (partial_state d n) = BLOCKSIZE.
Proof.
  intros Hd Hn. unfold partial_state.
  rewrite length_app, length_replicate, length_drop. lia.
Qed.

Lemma partial_state_bytes (d : list Z) n : is_bytes d -> is_bytes (partial_state d n).
Proof.
  intros Hd. unfold partial_state, is_bytes. rewrite Forall_app. split.
  - apply is_bytes_replicate. unfold is_byte. lia.
  - apply Forall_drop, Hd.
Qed.

Lemma partial_state_lookup_lt (d : list Z) n k :
  (k < n)%nat -> partial_state d n !! k = Some 0.
Proof.
  intros Hk. unfold partial_state.
  rewrite lookup_app_l by (rewrite length_replicate; lia).
  apply lookup_replicate_2, Hk.
Qed.

Lemma partial_state_lookup_ge (d : list Z) n k :
  (n <= k)%nat -> partial_state d n !! k = d !! k.
Proof.
  intros Hk. unfold partial_state.
  rewrite lookup_app_r by (rewrite length_replicate; lia).
  rewrite length_replicate, lookup_drop. f_equal. lia.
Qed.

Lemma partial_state_insert (d : list Z) i x :
  length d = BLOCKSIZE -> d !! i = Some x ->
  <[i:=x]> (partial_state d (S i)) = partial_state d i.
Proof.
  intros Hd Hx. pose proof (lookup_lt_Some _ _ _ Hx) as Hi.
  apply list_eq. intros k. destruct (decide (k = i)) as [->|Hne].
  - rewrite list_lookup_insert_eq by (rewrite partial_state_length; lia).
    rewrite partial_state_lookup_ge by lia. symmetry. exact Hx.
  - rewrite list_lookup_insert_ne by congruence.
    destruct (decide (k < i)%nat).
    + rewrite !partial_state_lookup_lt by lia. reflexivity.
    + rewrite !partial_state_lookup_ge by lia. reflexivity.
Qed.

Lemma zip_lxor_lookup (a b : list Z) k x y :
  a !! k = Some x -> b !! k = Some y ->
  zip_with Z.lxor a b !! k = Some (Z.lxor x y).
Proof. intros Ha Hb. rewrite lookup_zip_with, Ha, Hb. reflexivity. Qed.

(** What the oracle sees for the IV of guess [g] at index [i]: the
    intermediate value below [i], [d[i] XOR g] at [i], and the pad value
    above [i]. *)
Lemma probe_plain_lookup (d iv1 : list Z) i g x :
  length d = BLOCKSIZE -> d !! i = Some x ->
  probe_iv i g (partial_state d (S i)) = Ok iv1 ->
  (forall k, (k < i)%nat -> zip_with Z.lxor d iv1 !! k = d !! k) /\
  zip_with Z.lxor d iv1 !! i = Some (Z.lxor x g) /\
  (forall j, (i < j < BLOCKSIZE)%nat ->
     zip_with Z.lxor d iv1 !! j = Some (Z.of_nat (BLOCKSIZE - i))).
Proof.
  intros Hd Hx Hp. pose proof (lookup_lt_Some _ _ _ Hx) as Hi. rewrite Hd in Hi.
  destruct (probe_iv_lookup i g _ iv1 (partial_state_length d (S i) Hd Hi) Hi Hp)
    as (L1 & L2 & L3).
  repeat split.
  - intros k Hk. destruct (lookup_lt_is_Some_2 d k) as [y Hy]; [lia|].
    rewrite (zip_lxor_lookup d iv1 k y 0 Hy).
    + rewrite Z.lxor_0_r. symmetry. exact Hy.
    + rewrite L1 by exact Hk. apply partial_state_lookup_lt. lia.
  - apply zip_lxor_lookup; assumption.
  - intros j Hj. destruct (L3 j Hj) as (y & Hy & Hj1).
    rewrite partial_state_lookup_ge in Hy by lia.
    rewrite (zip_lxor_lookup d iv1 j _ _ Hy Hj1), lxor_cancel_l. reflexivity.
Qed.

(** Away from the last index the oracle accepts exactly the guess with
    [d[i] XOR g = BLOCKSIZE - i]. *)
Lemma valid_padding_inner (d iv1 : list Z) i g x :
  length d = BLOCKSIZE -> d !! i = Some x -> i <> (BLOCKSIZE - 1)%nat ->
  probe_iv i g (partial_state d (S i)) = Ok iv1 ->
  valid_padding (zip_with Z.lxor d iv1) = true <->
  Z.lxor x g = Z.of_nat (BLOCKSIZE - i).
Proof.
  intros Hd Hx Hnl Hp. pose proof (lookup_lt_Some _ _ _ Hx) as Hi. rewrite Hd in Hi.
  destruct (probe_plain_lookup d iv1 i g x Hd Hx Hp) as (_ & P2 & P3).
  assert (Hl1 : length iv1 = BLOCKSIZE).
  { apply (probe_iv_length i g _ _ (partial_state_length d (S i) Hd Hi) Hi Hp). }
  rewrite valid_padding_lookup by (rewrite length_zip_with; lia).
  split.
  - intros (p & Hp1 & Hall).
    assert (p = (BLOCKSIZE - i)%nat) as ->.
    { specialize (Hall (BLOCKSIZE - 1)%nat ltac:(lia)).
      rewrite P3 in Hall by lia. injection Hall. lia. }
    specialize (Hall i ltac:(lia)). rewrite P2 in Hall. congruence.
  - intros E. exists (BLOCKSIZE - i)%nat. split; [lia|]. intros j Hj.
    destruct (decide (j = i)) as [->|Hne]; [rewrite P2, E; reflexivity|].
    apply P3. lia.
Qed.

(** At the last index the oracle accepts both the IV of guess [g] and
    its confirmation IV exactly when [d[i] XOR g = 1]. *)
Lemma valid_padding_last (d iv1 iv2 : list Z) i g x :
  length d = BLOCKSIZE -> d !! i = Some x -> i = (BLOCKSIZE - 1)%nat ->
  probe_iv i g (partial_state d (S i)) = Ok iv1 ->
  confirm_iv i iv1 = Ok iv2 ->
  valid_padding (zip_with Z.lxor d iv1) = true /\
  valid_padding (zip_with Z.lxor d iv2) = true <->
  Z.lxor x g = 1.
Proof.
  intros Hd Hx Hl Hp Hc. pose proof BLOCKSIZE_eq as HB.
  assert (Hi : (i < BLOCKSIZE)%nat) by lia.
  pose proof (partial_state_length d (S i) Hd Hi) as Hst.
  destruct (probe_plain_lookup d iv1 i g x Hd Hx Hp) as (P1 & P2 & _).
  destruct (probe_iv_lookup i g _ iv1 Hst Hi Hp) as (L1 & L2 & _).
  pose proof (probe_iv_length i g _ _ Hst Hi Hp) as Hl1.
  assert (H0 : iv1 !! (i - 1)%nat = Some 0).
  { rewrite L1 by lia. apply partial_state_lookup_lt. lia. }
  rewrite (confirm_iv_ok i iv1 0 H0), take_drop_insert in Hc by lia.
  injection Hc as <-. change ((0 + 1) `mod` 256) with 1.
  destruct (lookup_lt_is_Some_2 d (i - 1)) as [y Hy]; [lia|].
  assert (Q1 : zip_with Z.lxor d iv1 !! (i - 1)%nat = Some y).
  { rewrite P1 by lia. exact Hy. }
  assert (Q2 : zip_with Z.lxor d (<[(i - 1)%nat:=1]> iv1) !! (i - 1)%nat
               = Some (Z.lxor y 1)).
  { apply zip_lxor_lookup; [exact Hy|]. apply list_lookup_insert_eq. lia. }
  assert (Q3 : zip_with Z.lxor d (<[(i - 1)%nat:=1]> iv1) !! i = Some (Z.lxor x g)).
  { apply zip_lxor_lookup; [exact Hx|]. rewrite list_lookup_insert_ne by lia. exact L2. }
  rewrite !valid_padding_lookup by (rewrite length_zip_with, ?length_insert; lia).
  split.
  - intros [(p & Hp1 & Hall) (p' & Hp1' & Hall')].
    pose proof (Hall i ltac:(lia)) as E. rewrite P2 in E.
    pose proof (Hall' i ltac:(lia)) as E'. rewrite Q3 in E'.
    assert (p' = p) as -> by (injection E; injection E'; lia).
    destruct (decide (p = 1%nat)) as [->|Hne]; [injection E as ->; reflexivity|].
    specialize (Hall (i - 1)%nat ltac:(lia)). rewrite Q1 in Hall.
    specialize (Hall' (i - 1)%nat ltac:(lia)). rewrite Q2 in Hall'.
    exfalso. apply (lxor_1_neq y). congruence.
  - intros E. split; exists 1%nat; (split; [lia|]); intros j Hj;
      replace j with i by lia; [rewrite P2 | rewrite Q3]; rewrite E; reflexivity.
Qed.

Lemma lxor_pad_solve x g q : Z.lxor x g = q <-> g = Z.lxor x q.
Proof.
  split; [intros <- | intros ->]; rewrite lxor_cancel_l; reflexivity.
Qed.

(** Against the demo oracle the guess loop at index [i] recovers byte
    [i] of the intermediate value [d] of the block. *)
Lemma guess_loop_recovers self (c : list Z) i x gs :
  length c = BLOCKSIZE ->
  is_block (aes_decrypt (key self) c) ->
  aes_decrypt (key self) c !! i = Some x ->
  Forall is_byte gs ->
  Z.lxor x (Z.of_nat (BLOCKSIZE - i)) ∈ gs ->
  outcome (guess_loop (decrypt_check aes_decrypt self) c i
             (partial_state (aes_decrypt (key self) c) (S i)) gs)
  = Ok (partial_state (aes_decrypt (key self) c) i).
Proof.
  set (d := aes_decrypt (key self) c). intros Hc [Hd Hdb] Hx Hgs Hin.
  pose proof (lookup_lt_Some _ _ _ Hx) as Hi. rewrite Hd in Hi.
  pose proof (partial_state_length d (S i) Hd Hi) as Hst.
  pose proof (partial_state_bytes d (S i) Hdb) as Hsb.
  induction Hgs as [|g gs Hg Hgs IH]; [apply elem_of_nil in Hin; destruct Hin|].
  pose proof (probe_iv_ok i g _ Hst Hsb Hg) as Hp.
  set (iv1 := take i _ ++ _) in Hp.
  pose proof (probe_iv_length i g _ _ Hst Hi Hp) as Hl1.
  rewrite (guess_loop_step _ _ _ _ _ _ _ Hp).
  rewrite (decrypt_check_block self c iv1 Hc Hl1). fold d.
  assert (Hset : forall q, Z.lxor x g = q -> q = Z.of_nat (BLOCKSIZE - i) ->
            setitem (partial_state d (S i)) i (Z.lxor g (Z.of_nat (BLOCKSIZE - i)))
            = Ok (partial_state d i)).
  { intros q E ->. rewrite setitem_ok by lia. f_equal.
    apply lxor_pad_solve in E. rewrite E, lxor_cancel_r.
    apply partial_state_insert; assumption. }
  assert (Hrest : Z.lxor x g <> Z.of_nat (BLOCKSIZE - i) ->
            outcome (guess_loop (decrypt_check aes_decrypt self) c i
                       (partial_state d (S i)) gs) = Ok (partial_state d i)).
  { intros Hne. apply IH. apply elem_of_cons in Hin as [E|Hin]; [|exact Hin].
    exfalso. apply Hne. rewrite <- E. apply lxor_cancel_l. }
  destruct (decide (i = (BLOCKSIZE - 1)%nat)) as [Hl|Hnl].
  - assert (Hpad : Z.of_nat (BLOCKSIZE - i) = 1) by (pose proof BLOCKSIZE_eq; lia).
    destruct (lookup_lt_is_Some_2 iv1 (i - 1)) as [y Hy]; [lia|].
    pose proof (confirm_iv_ok i iv1 y Hy) as Hcf.
    set (iv2 := take (i - 1) iv1 ++ _) in Hcf.
    assert (Hl2 : length iv2 = BLOCKSIZE).
    { subst iv2. rewrite take_drop_insert, length_insert by lia. exact Hl1. }
    pose proof (valid_padding_last d iv1 iv2 i g x Hd Hx Hl Hp Hcf) as Hacc.
    rewrite Hcf, (decrypt_check_block self c iv2 Hc Hl2). fold d.
    destruct (valid_padding (zip_with Z.lxor d iv1)) eqn:V1;
      [destruct (valid_padding (zip_with Z.lxor d iv2)) eqn:V2|]; cbn [outcome].
    + apply (Hset 1); [apply Hacc; split; reflexivity | congruence].
    + apply Hrest. rewrite Hpad. intros E. apply Hacc in E as [_ E]. discriminate.
    + apply Hrest. rewrite Hpad. intros E. apply Hacc in E as [E _]. discriminate.
  - pose proof (valid_padding_inner d iv1 i g x Hd Hx Hnl Hp) as Hacc.
    destruct (valid_padding (zip_with Z.lxor d iv1)) eqn:V1; cbn [outcome].
    + apply (Hset (Z.of_nat (BLOCKSIZE - i))); [apply Hacc|]; reflexivity.
    + apply Hrest. intros E. apply Hacc in E. discriminate.
Qed.

Lemma byte_loop_recovers self (c : list Z) n :
  length c = BLOCKSIZE ->
  is_block (aes_decrypt (key self) c) ->
  (n <= BLOCKSIZE)%nat ->
  outcome (byte_loop (decrypt_check aes_decrypt self) c (indices_after n)
             (partial_state (aes_decrypt (key self) c) n))
  = Ok (aes_decrypt (key self) c).
Proof.
  intros Hc Hd. induction n as [|n IH]; intros Hn.
  - reflexivity.
  - rewrite indices_after_S. cbn [byte_loop]. rewrite outcome_bind.
    destruct (lookup_lt_is_Some_2 (aes_decrypt (key self) c) n) as [x Hx];
      [destruct Hd; lia|].
    rewrite (guess_loop_recovers self c n x guesses Hc Hd Hx is_bytes_guesses).
    + apply IH. lia.
    + apply elem_of_seqZ.
      assert (Hb : is_byte (Z.lxor x (Z.of_nat (BLOCKSIZE - n)))).
      { apply lxor_byte; [|apply pad_value_byte].
        destruct Hd as [_ Hd]. exact (Forall_lookup_1 _ _ _ _ Hd Hx). }
      unfold is_byte in Hb. lia.
Qed.

(** The attack on one block returns the intermediate value XORed with
    the predecessor block. *)
Lemma attack_recovers self (c prev : list Z) :
  length c = BLOCKSIZE ->
  is_block (aes_decrypt (key self) c) ->
  is_block prev ->
  outcome (attack_single_block (decrypt_check aes_decrypt self) prev c)
  = Ok (zip_with Z.lxor (aes_decrypt (key self) c) prev).
Proof.
  intros Hc Hd [Hp Hpb]. unfold attack_single_block. rewrite outcome_bind.
  pose proof (byte_loop_recovers self c BLOCKSIZE Hc Hd (Nat.le_refl _)) as H.
  unfold partial_state in H.
  rewrite drop_ge, app_nil_r in H by (destruct Hd; lia).
  change (indices_after BLOCKSIZE) with indices in H. rewrite H.
  cbn [lift outcome]. destruct Hd as [Hd Hdb].
  apply xor_ok; [congruence | exact Hdb | exact Hpb].
Qed.

Lemma zip_lxor_involutive (p v : list Z) :
  length p = length v -> zip_with Z.lxor (zip_with Z.lxor p v) v = p.
Proof.
  revert v. induction p as [|x p IH]; intros [|y v] Hl; try discriminate; simpl.
  - reflexivity.
  - rewrite lxor_cancel_r, IH by (simpl in Hl; lia). reflexivity.
Qed.

Lemma is_block_zip_lxor (p v : list Z) :
  is_block p -> is_block v -> is_block (zip_with Z.lxor p v).
Proof.
  intros [Hp Hpb] [Hv Hvb]. split.
  - rewrite length_zip_with; lia.
  - apply is_bytes_zip_lxor; assumption.
Qed.

(** ** Blocks of a padded message *)

Lemma split_blocks_app (b l : list Z) :
  length b = BLOCKSIZE -> split_blocks (b ++ l) = b :: split_blocks l.
Proof.
  intros Hb. unfold split_blocks, block_starts. rewrite length_app, Hb.
  replace (BLOCKSIZE + length l + BLOCKSIZE - 1)%nat
    with (1 * BLOCKSIZE + (length l + BLOCKSIZE - 1))%nat by lia.
  rewrite Nat.div_add_l by discriminate.
  cbn [Nat.add seq fmap list_fmap]. f_equal.
  - change (0 * BLOCKSIZE)%nat with 0%nat. rewrite drop_0.
    apply take_app_length'. symmetry. exact Hb.
  - change (list_fmap nat nat ?f ?l) with (f <$> l).
    change (list_fmap nat (list Z) ?f ?l) with (f <$> l).
    rewrite <- fmap_S_seq, <- !list_fmap_compose.
    apply list_fmap_ext. intros _ k _. unfold compose.
    replace (S k * BLOCKSIZE)%nat with (BLOCKSIZE + k * BLOCKSIZE)%nat by lia.
    rewrite drop_app_add' by (symmetry; exact Hb). reflexivity.
Qed.

Lemma split_blocks_nil : split_blocks [] = [].
Proof. reflexivity. Qed.

Lemma split_blocks_concat (bs : list (list Z)) :
  Forall (fun b => length b = BLOCKSIZE) bs -> split_blocks (concat bs) = bs.
Proof.
  induction 1 as [|b bs Hb _ IH]; [reflexivity|].
  cbn [concat]. rewrite split_blocks_app by exact Hb. rewrite IH. reflexivity.
Qed.

Lemma blocks_of_multiple n (l : list Z) :
  length l = (n * BLOCKSIZE)%nat -> is_bytes l ->
  exists bs, l = concat bs /\ Forall is_block bs.
Proof.
  revert l. induction n as [|n IH]; intros l Hl Hb.
  - exists []. split; [|constructor]. destruct l; [reflexivity | discriminate].
  - destruct (IH (drop BLOCKSIZE l)) as (bs & E & Hbs).
    + rewrite length_drop. lia.
    + apply Forall_drop, Hb.
    + exists (take BLOCKSIZE l :: bs). split.
      * cbn [concat]. rewrite <- E, take_drop. reflexivity.
      * constructor; [|exact Hbs]. split; [|apply Forall_take, Hb].
        rewrite length_take. lia.
Qed.

Lemma pad_length (message : list Z) :
  length (pad message BLOCKSIZE)
  = (S (length message / BLOCKSIZE) * BLOCKSIZE)%nat.
Proof.
  unfold pad. rewrite length_app, length_replicate.
  pose proof (Nat.div_mod_eq (length message) BLOCKSIZE) as E.
  pose proof (Nat.mod_upper_bound (length message) BLOCKSIZE ltac:(discriminate)) as Hr.
  lia.
Qed.

Lemma pad_bytes (message : list Z) :
  is_bytes message -> is_bytes (pad message BLOCKSIZE).
Proof.
  intros Hm. unfold pad, is_bytes. rewrite Forall_app. split; [exact Hm|].
  apply is_bytes_replicate. unfold is_byte. pose proof BLOCKSIZE_eq. lia.
Qed.

(** ** The number of calls against the demo oracle *)

(** Away from the last index the guess loop stops at the guess
    [d[i] XOR (BLOCKSIZE - i)], after one call per guess. *)
Lemma guess_loop_inner_count self (c : list Z) i x :
  length c = BLOCKSIZE ->
  is_block (aes_decrypt (key self) c) ->
  aes_decrypt (key self) c !! i = Some x ->
  i <> (BLOCKSIZE - 1)%nat ->
  length (queries (guess_loop (decrypt_check aes_decrypt self) c i
                     (partial_state (aes_decrypt (key self) c) (S i)) guesses))
  = S (Z.to_nat (Z.lxor x (Z.of_nat (BLOCKSIZE - i)))).
Proof.
  set (d := aes_decrypt (key self) c). intros Hc [Hd Hdb] Hx Hnl.
  pose proof (lookup_lt_Some _ _ _ Hx) as Hi. rewrite Hd in Hi.
  pose proof (partial_state_length d (S i) Hd Hi) as Hst.
  pose proof (partial_state_bytes d (S i) Hdb) as Hsb.
  set (g := Z.lxor x (Z.of_nat (BLOCKSIZE - i))).
  assert (Hg : is_byte g).
  { apply lxor_byte; [exact (Forall_lookup_1 _ _ _ _ Hdb Hx) | apply pad_value_byte]. }
  assert (Hflag : forall g', is_byte g' ->
            exists iv1, probe_iv i g' (partial_state d (S i)) = Ok iv1 /\
              decrypt_check aes_decrypt self c iv1
              = Ok (zip_with Z.lxor d iv1, bool_decide (g' = g))).
  { intros g' Hg'. pose proof (probe_iv_ok i g' _ Hst Hsb Hg') as Hp.
    eexists. split; [exact Hp|].
    rewrite decrypt_check_block
      by (try exact Hc; exact (probe_iv_length i g' _ _ Hst Hi Hp)).
    fold d. f_equal. f_equal.
    pose proof (valid_padding_inner d _ i g' x Hd Hx Hnl Hp) as Hacc.
    rewrite lxor_pad_solve in Hacc. fold g in Hacc.
    destruct (valid_padding _); case_bool_decide; try reflexivity.
    - exfalso. apply H. apply Hacc. reflexivity.
    - apply Hacc in H. discriminate. }
  destruct (guess_loop_skip (decrypt_check aes_decrypt self) c i
              (partial_state d (S i)) (seqZ 0 g) (g :: seqZ (g + 1) (255 - g)))
    as (qs & Hqs & Hrun).
  { apply Forall_forall. intros g' Hg'. apply elem_of_seqZ in Hg'.
    destruct (Hflag g') as (iv1 & Hp & Ho); [unfold is_byte in *; lia|].
    rewrite bool_decide_eq_false_2 in Ho by lia. eauto. }
  rewrite <- guesses_split in Hrun by exact Hg. rewrite Hrun. cbn [queries].
  destruct (Hflag g Hg) as (iv1 & Hp & Ho).
  rewrite (guess_loop_step _ _ _ _ _ _ _ Hp), Ho.
  rewrite bool_decide_eq_true_2 by reflexivity.
  rewrite decide_False by exact Hnl. cbn [queries].
  apply Forall2_length in Hqs. rewrite length_seqZ in Hqs.
  rewrite length_app. unfold query in *. cbn [length]. lia.
Qed.

(** At the last index a guess passes the first check only if it is a
    candidate. *)
Lemma valid_padding_last_candidate (d iv1 : list Z) g x y :
  length d = BLOCKSIZE ->
  d !! (BLOCKSIZE - 1)%nat = Some x -> d !! (BLOCKSIZE - 2)%nat = Some y ->
  probe_iv (BLOCKSIZE - 1) g (partial_state d BLOCKSIZE) = Ok iv1 ->
  valid_padding (zip_with Z.lxor d iv1) = true ->
  last_index_candidate x y g.
Proof.
  intros Hd Hx Hy Hp Hv. pose proof BLOCKSIZE_eq as HB.
  change BLOCKSIZE with (S (BLOCKSIZE - 1)) in Hp at 2.
  destruct (probe_plain_lookup d iv1 _ g x Hd Hx Hp) as (P1 & P2 & _).
  assert (Hi : (BLOCKSIZE - 1 < BLOCKSIZE)%nat) by lia.
  pose proof (partial_state_length d BLOCKSIZE Hd (Nat.le_refl _)) as Hst.
  pose proof (probe_iv_length (BLOCKSIZE - 1) g _ _ Hst Hi Hp) as Hl1.
  apply valid_padding_lookup in Hv; [|rewrite length_zip_with; lia].
  destruct Hv as (p & Hp1 & Hall).
  pose proof (Hall (BLOCKSIZE - 1)%nat ltac:(lia)) as E. rewrite P2 in E.
  injection E as E. unfold last_index_candidate.
  destruct (decide (p = 1%nat)) as [->|Hne]; [left; exact E|]. right.
  specialize (Hall (BLOCKSIZE - 2)%nat ltac:(lia)).
  rewrite P1, Hy in Hall by lia. injection Hall as ->. split; [exact E | lia].
Qed.

(** At the last index every guess costs one call, and one more if it is
    a candidate. *)
Lemma guess_loop_last_count self (c : list Z) x y gs :
  length c = BLOCKSIZE ->
  is_block (aes_decrypt (key self) c) ->
  aes_decrypt (key self) c !! (BLOCKSIZE - 1)%nat = Some x ->
  aes_decrypt (key self) c !! (BLOCKSIZE - 2)%nat = Some y ->
  Forall is_byte gs ->
  (length (queries (guess_loop (decrypt_check aes_decrypt self) c (BLOCKSIZE - 1)
                      (partial_state (aes_decrypt (key self) c) BLOCKSIZE) gs))
   <= length gs + length (filter (last_index_candidate x y) gs))%nat.
Proof.
  set (d := aes_decrypt (key self) c). intros Hc [Hd Hdb] Hx Hy Hgs.
  pose proof BLOCKSIZE_eq as HB.
  pose proof (partial_state_length d BLOCKSIZE Hd (Nat.le_refl _)) as Hst.
  pose proof (partial_state_bytes d BLOCKSIZE Hdb) as Hsb.
  induction Hgs as [|g gs Hg Hgs IH]; [cbn; lia|].
  pose proof (probe_iv_ok (BLOCKSIZE - 1) g _ Hst Hsb Hg) as Hp.
  set (iv1 := take _ _ ++ _) in Hp.
  assert (Hi : (BLOCKSIZE - 1 < BLOCKSIZE)%nat) by lia.
  pose proof (probe_iv_length (BLOCKSIZE - 1) g _ _ Hst Hi Hp) as Hl1.
  rewrite (guess_loop_step _ _ _ _ _ _ _ Hp).
  rewrite (decrypt_check_block self c iv1 Hc Hl1). fold d.
  assert (Hmono : (length (filter (last_index_candidate x y) gs)
                   <= length (filter (last_index_candidate x y) (g :: gs)))%nat).
  { rewrite filter_cons. case_decide; cbn [length]; lia. }
  destruct (valid_padding (zip_with Z.lxor d iv1)) eqn:V1; cbn [queries length];
    [|lia].
  rewrite filter_cons_True
    by exact (valid_padding_last_candidate d iv1 g x y Hd Hx Hy Hp V1).
  rewrite decide_True by reflexivity.
  destruct (confirm_iv (BLOCKSIZE - 1) iv1) as [iv2|e]; cbn [queries length]; [|lia].
  destruct (decrypt_check aes_decrypt self c iv2) as [[dk2 [|]]|e];
    cbn [queries length]; lia.
Qed.

Lemma candidates_le x y (gs : list Z) :
  NoDup gs ->
  (length (filter (last_index_candidate x y) gs)
   <= if decide (2 <= y <= 16)%Z then 2 else 1)%nat.
Proof.
  intros Hnd.
  assert (Hsub : forall k : list Z,
            (forall g, last_index_candidate x y g -> g ∈ k) ->
            (length (filter (last_index_candidate x y) gs) <= length k)%nat).
  { intros k Hk. apply submseteq_length, NoDup_submseteq.
    - apply NoDup_filter, Hnd.
    - intros g Hg. apply list_elem_of_filter in Hg as [Hg _]. apply Hk, Hg. }
  case_decide as Hy.
  - apply (Hsub [Z.lxor x 1; Z.lxor x y]). intros g [E | [E _]];
      apply lxor_pad_solve in E; rewrite E;
      [apply elem_of_cons; left | apply elem_of_cons; right; apply elem_of_cons; left];
      reflexivity.
  - apply (Hsub [Z.lxor x 1]). intros g [E | [_ E]]; [|lia].
    apply lxor_pad_solve in E. rewrite E. apply elem_of_cons. left. reflexivity.
Qed.

(** Against the demo oracle an attack on one block makes at most
    [BLOCKSIZE * 256 + 1] calls. *)
Lemma attack_demo_queries_le self (c prev : list Z) :
  length c = BLOCKSIZE ->
  is_block (aes_decrypt (key self) c) ->
  (length (queries (attack_single_block (decrypt_check aes_decrypt self) prev c))
   <= BLOCKSIZE * 256 + 1)%nat.
Proof.
  set (d := aes_decrypt (key self) c). intros Hc Hdblk.
  pose proof Hdblk as [Hd Hdb]. pose proof BLOCKSIZE_eq as HB.
  destruct (lookup_lt_is_Some_2 d (BLOCKSIZE - 1)) as [x Hx]; [lia|].
  destruct (lookup_lt_is_Some_2 d (BLOCKSIZE - 2)) as [y Hy]; [lia|].
  unfold attack_single_block. rewrite queries_bind, length_app.
  assert (Hxor : forall r : result (list Z),
            length match r with
                   | Ok a => queries (lift (xor a prev))
                   | Raise _ => []
                   end = 0%nat) by (intros [a|e]; reflexivity).
  rewrite Hxor, Nat.add_0_r.
  assert (Ei : indices = (BLOCKSIZE - 1)%nat :: (BLOCKSIZE - 2)%nat
                          :: indices_after (BLOCKSIZE - 2)) by reflexivity.
  rewrite Ei. clear Ei.
  assert (Ez : replicate BLOCKSIZE 0 = partial_state d BLOCKSIZE).
  { unfold partial_state. rewrite drop_ge, app_nil_r by lia. reflexivity. }
  rewrite Ez, !byte_loop_cons, queries_bind, length_app.
  pose proof (guess_loop_last_count self c x y guesses Hc Hdblk Hx Hy
                is_bytes_guesses) as H15.
  pose proof (candidates_le x y guesses (NoDup_seqZ _ _)) as Hcand.
  assert (Hlen : length guesses = 256%nat) by reflexivity.
  pose proof (guess_loop_recovers self c (BLOCKSIZE - 1) x guesses Hc Hdblk Hx
                is_bytes_guesses) as R15.
  assert (E1 : S (BLOCKSIZE - 1) = BLOCKSIZE) by reflexivity.
  rewrite E1 in R15. clear E1. fold d in R15, H15.
  rewrite R15.
  2:{ apply elem_of_seqZ.
      assert (Hb : is_byte (Z.lxor x (Z.of_nat (BLOCKSIZE - (BLOCKSIZE - 1))))).
      { apply lxor_byte; [exact (Forall_lookup_1 _ _ _ _ Hdb Hx) | apply pad_value_byte]. }
      unfold is_byte in Hb. lia. }
  pose proof (guess_loop_inner_count self c (BLOCKSIZE - 2) y Hc Hdblk Hy
                ltac:(lia)) as H14.
  assert (E2 : S (BLOCKSIZE - 2) = (BLOCKSIZE - 1)%nat) by reflexivity.
  rewrite E2 in H14. clear E2. fold d in H14.
  cbn beta iota. rewrite byte_loop_cons, queries_bind, length_app, H14.
  assert (Hy_byte : is_byte y) by exact (Forall_lookup_1 _ _ _ _ Hdb Hy).
  assert (Hrest : forall r : result (list Z),
            (length match r with
                    | Ok a => queries (byte_loop (decrypt_check aes_decrypt self) c
                                         (indices_after (BLOCKSIZE - 2)) a)
                    | Raise _ => []
                    end <= 14 * 256)%nat).
  { intros [a|e]; [|cbn [length]; lia].
    etransitivity; [apply byte_loop_queries_le|].
    assert (E : sum_list_with (fun i => (calls_per_guess i * 256)%nat)
                  (indices_after (BLOCKSIZE - 2)) = (14 * 256)%nat)
      by (vm_compute; reflexivity).
    rewrite E. lia. }
  specialize (Hrest (outcome (guess_loop (decrypt_check aes_decrypt self) c
                                (BLOCKSIZE - 2) (partial_state d (BLOCKSIZE - 1))
                                guesses))).
  assert (H14b : is_byte (Z.lxor y (Z.of_nat (BLOCKSIZE - (BLOCKSIZE - 2)))))
    by (apply lxor_byte; [exact Hy_byte | apply pad_value_byte]).
  replace (Z.of_nat (BLOCKSIZE - (BLOCKSIZE - 2))) with 2 in * by lia.
  unfold is_byte in H14b, Hy_byte.
  destruct (decide (2 <= y <= 16)) as [Hyr|Hyr].
  - assert (Z.lxor y 2 < 32).
    { assert (Hc16 : y = 2 \/ y = 3 \/ y = 4 \/ y = 5 \/ y = 6 \/ y = 7 \/ y = 8 \/
                     y = 9 \/ y = 10 \/ y = 11 \/ y = 12 \/ y = 13 \/ y = 14 \/
                     y = 15 \/ y = 16) by lia.
      repeat (destruct Hc16 as [-> | Hc16]; [vm_compute; reflexivity|]).
      subst y. vm_compute. reflexivity. }
    lia.
  - lia.
Qed.

(** C9 (amended).  An attack on one block makes at most
    [(BLOCKSIZE + 1) * 256] oracle calls against any oracle, and at most
    [BLOCKSIZE * 256 + 1] against the demo oracle, confirmation calls
    included. *)
Theorem C9_calls_per_block_bound self (iv block : list Z) :
  length block = BLOCKSIZE ->
  is_block (aes_decrypt (key self) block) ->
  (forall oracle,
     (length (queries (attack_single_block oracle iv block))
      <= (BLOCKSIZE + 1) * 256)%nat) /\
  (length (queries (attack_single_block (decrypt_check aes_decrypt self) iv block))
   <= BLOCKSIZE * 256 + 1)%nat.
Proof.
  intros Hc Hd. split.
  - intros oracle. apply attack_queries_le.
  - apply attack_demo_queries_le; assumption.
Qed.

(** ** Round trip *)

Lemma cbc_encrypt_blocks_chain k prev blocks :
  cbc_encrypt_blocks aes_encrypt k prev blocks
  = concat (cbc_chain aes_encrypt k prev blocks).
Proof.
  revert prev. induction blocks as [|p rest IH]; intros prev; [reflexivity|].
  cbn [cbc_encrypt_blocks cbc_chain concat]. rewrite IH. reflexivity.
Qed.

(** The block cipher maps blocks to blocks, and decryption undoes
    encryption under the same key. *)
Hypothesis aes_encrypt_block :
  forall k p, is_block p -> is_block (aes_encrypt k p).
Hypothesis aes_decrypt_encrypt :
  forall k p, is_block p -> aes_decrypt k (aes_encrypt k p) = p.

Lemma cbc_chain_blocks k prev blocks :
  is_block prev -> Forall is_block blocks ->
  Forall is_block (cbc_chain aes_encrypt k prev blocks).
Proof.
  intros Hprev Hbs. revert prev Hprev.
  induction Hbs as [|p rest Hp _ IH]; intros prev Hprev; [constructor|].
  cbn [cbc_chain]. pose proof (is_block_zip_lxor p prev Hp Hprev) as Hx.
  constructor; [apply aes_encrypt_block, Hx|]. apply IH, aes_encrypt_block, Hx.
Qed.

(** The driver loop over the ciphertext blocks of a chain recovers the
    plaintext blocks. *)
Lemma driver_loop_recovers k blocks prev plain :
  is_block prev -> Forall is_block blocks ->
  outcome (driver_loop (decrypt_check aes_decrypt {| key := k |})
             (cbc_chain aes_encrypt k prev blocks) plain prev)
  = Ok (plain ++ concat blocks).
Proof.
  intros Hprev Hbs. revert prev plain Hprev.
  induction Hbs as [|p rest Hp _ IH]; intros prev plain Hprev.
  - cbn. rewrite app_nil_r. reflexivity.
  - cbn [cbc_chain driver_loop concat]. rewrite outcome_bind.
    pose proof (is_block_zip_lxor p prev Hp Hprev) as Hx.
    pose proof (aes_encrypt_block k _ Hx) as Hc.
    rewrite attack_recovers; cbn [key]; rewrite ?aes_decrypt_encrypt by exact Hx;
      [| exact (proj1 Hc) | exact Hx | exact Hprev].
    rewrite zip_lxor_involutive by (destruct Hp, Hprev; congruence).
    rewrite IH by exact Hc. rewrite app_assoc. reflexivity.
Qed.

(** C1.  For every oracle key, every drawn IV and every plaintext
    message, of any length, [encrypt] returns the IV and a ciphertext, and
    the driver run on them against [decrypt_check] returns exactly the
    padded plaintext; so does the [__main__] block. *)
Theorem C1_round_trip k (fresh_iv message : list Z) :
  is_block fresh_iv -> is_bytes message ->
  exists ct,
    encrypt aes_encrypt {| key := k |} fresh_iv message = Ok (fresh_iv, ct) /\
    outcome (driver (decrypt_check aes_decrypt {| key := k |}) fresh_iv ct)
      = Ok (pad message BLOCKSIZE) /\
    outcome (main aes_encrypt aes_decrypt k fresh_iv message)
      = Ok (pad message BLOCKSIZE).
Proof.
  intros Hiv Hm.
  destruct (blocks_of_multiple _ _ (pad_length message) (pad_bytes message Hm))
    as (bs & Ebs & Hbs).
  assert (Hlen : Forall (fun b : list Z => length b = BLOCKSIZE) bs)
    by (eapply Forall_impl; [exact Hbs | intros b [Hb _]; exact Hb]).
  set (ct := concat (cbc_chain aes_encrypt k fresh_iv bs)).
  assert (Henc : encrypt aes_encrypt {| key := k |} fresh_iv message
                 = Ok (fresh_iv, ct)).
  { unfold encrypt, AES_new, cbc_encrypt.
    rewrite decide_True by exact (proj1 Hiv). cbn [mbind result_bind key fst snd].
    rewrite decide_True by (rewrite pad_length; apply Nat.Div0.mod_mul).
    rewrite Ebs at 1. rewrite split_blocks_concat by exact Hlen.
    rewrite cbc_encrypt_blocks_chain. reflexivity. }
  assert (Hdrv : outcome (driver (decrypt_check aes_decrypt {| key := k |})
                            fresh_iv ct) = Ok (pad message BLOCKSIZE)).
  { unfold driver, ct. rewrite split_blocks_concat.
    - rewrite driver_loop_recovers by assumption. rewrite Ebs. reflexivity.
    - eapply Forall_impl; [apply cbc_chain_blocks; assumption|].
      intros b [Hb _]. exact Hb. }
  exists ct. split; [exact Henc | split; [exact Hdrv|]].
  unfold main. rewrite Henc, bind_lift_Ok. exact Hdrv.
Qed.

End OracleFacts.

(** ** The toy instance *)

Lemma toy_mask_byte k : is_byte (toy_mask k).
Proof.
  unfold toy_mask, is_byte. destruct k as [|x k]; [lia|].
  apply Z.mod_pos_bound. lia.
Qed.

Lemma toy_encrypt_block k p : is_block p -> is_block (toy_encrypt k p).
Proof.
  intros [Hl Hb]. unfold toy_encrypt. split.
  - rewrite length_fmap, length_reverse. exact Hl.
  - apply Forall_fmap, Forall_reverse. eapply Forall_impl; [exact Hb|].
    intros x Hx. apply lxor_byte; [exact Hx | apply toy_mask_byte].
Qed.

Lemma toy_decrypt_encrypt k p : is_block p -> toy_decrypt k (toy_encrypt k p) = p.
Proof.
  intros _. unfold toy_decrypt, toy_encrypt.
  rewrite <- list_fmap_compose.
  rewrite (list_fmap_ext _ id (reverse p)).
  - rewrite list_fmap_id. apply reverse_involutive.
  - intros _ x _. unfold compose, id. apply lxor_cancel_r.
Qed.



(** The scenario of the specification: block size 16 and the plaintext
    "Long Secret Message", 19 bytes, hence two blocks with 13 pad bytes. *)
Example main_long_secret_message :
  outcome (main toy_encrypt toy_decrypt toy_key toy_iv long_secret_message)
  = Ok (long_secret_message ++ replicate 13 13).
Proof. vm_compute. reflexivity. Qed.

(** Last-byte ambiguity: on [sample_block] the guess 4 passes the first
    check at the last index and fails the confirmation; the guess 7 is the
    one accepted, after 10 calls. *)
Example last_byte_false_positive :
  outcome (guess_loop toy_oracle sample_block 15 (replicate 16 0) guesses)
  = Ok (partial_state sample_intermediate 15) /\
  snd <$> queries (guess_loop toy_oracle sample_block 15 (replicate 16 0) guesses)
  = [ replicate 15 0 ++ [0]; replicate 15 0 ++ [1]; replicate 15 0 ++ [2];
      replicate 15 0 ++ [3]; replicate 15 0 ++ [4]; replicate 14 0 ++ [1; 4];
      replicate 15 0 ++ [5]; replicate 15 0 ++ [6]; replicate 15 0 ++ [7];
      replicate 14 0 ++ [1; 7] ].
Proof. split; vm_compute; reflexivity. Qed.

(** Exhaustion: against an oracle that never reports valid padding the
    attack ends in [exit(1)] after 256 calls. *)
Example never_valid_exhausts :
  outcome (attack_single_block never_valid toy_iv sample_block)
  = Raise (SystemExit 1) /\
  length (queries (attack_single_block never_valid toy_iv sample_block)) = 256%nat.
Proof. split; vm_compute; reflexivity. Qed.

(** ** Instances of the theorems *)

Lemma C1_round_trip_witness :
  is_block toy_iv /\ is_bytes long_secret_message /\
  exists ct,
    encrypt toy_encrypt {| key := toy_key |} toy_iv long_secret_message
      = Ok (toy_iv, ct) /\
    outcome (driver (decrypt_check toy_decrypt {| key := toy_key |}) toy_iv ct)
      = Ok (pad long_secret_message BLOCKSIZE) /\
    outcome (main toy_encrypt toy_decrypt toy_key toy_iv long_secret_message)
      = Ok (pad long_secret_message BLOCKSIZE).
Proof.
  assert (H1 : is_block toy_iv)
    by (split; [reflexivity | apply forallb_is_byteb; reflexivity]).
  assert (H2 : is_bytes long_secret_message)
    by (apply forallb_is_byteb; reflexivity).
  split; [exact H1 | split; [exact H2|]].
  exact (C1_round_trip toy_encrypt toy_decrypt toy_encrypt_block
           toy_decrypt_encrypt toy_key toy_iv long_secret_message H1 H2).
Defined.

Lemma C2_probe_iv_shape_witness :
  exists iv1,
    probe_iv 13 2 (partial_state sample_intermediate 14) = Ok iv1 /\
    (forall gs,
       head (queries (guess_loop toy_oracle sample_block 13
                        (partial_state sample_intermediate 14) (2 :: gs)))
       = Some (sample_block, iv1)) /\
    length iv1 = BLOCKSIZE /\
    (forall k, (k < 13)%nat -> iv1 !! k = Some 0) /\
    iv1 !! 13%nat = Some 2 /\
    (forall j, (13 < j < BLOCKSIZE)%nat ->
       exists d, partial_state sample_intermediate 14 !! j = Some d /\
                 iv1 !! j = Some (Z.lxor d (Z.of_nat (BLOCKSIZE - 13)))).
Proof.
  apply (C2_probe_iv_shape toy_oracle sample_block 13 2
           (partial_state sample_intermediate 14)).
  - unfold BLOCKSIZE. lia.
  - unfold is_byte. lia.
  - vm_compute. reflexivity.
Defined.

Lemma C3_last_byte_confirmation_witness :
  exists iv2 x,
    confirm_iv 15 (replicate 15 0 ++ [4]) = Ok iv2 /\
    (replicate 15 0 ++ [4]) !! 14%nat = Some x /\
    iv2 !! 14%nat = Some ((x + 1) `mod` 256) /\
    length iv2 = length (replicate 15 0 ++ [4]) /\
    (forall k, k <> 14%nat -> iv2 !! k = (replicate 15 0 ++ [4]) !! k) /\
    (forall dk2, toy_oracle sample_block iv2 = Ok (dk2, true) ->
       guess_loop toy_oracle sample_block 15 (replicate 16 0) [4; 5; 6; 7] =
       Traced (Ok (<[15%nat:=Z.lxor 4 1]> (replicate 16 0)))
              [(sample_block, replicate 15 0 ++ [4]); (sample_block, iv2)]) /\
    (forall dk2, toy_oracle sample_block iv2 = Ok (dk2, false) ->
       guess_loop toy_oracle sample_block 15 (replicate 16 0) [4; 5; 6; 7] =
       Traced (outcome (guess_loop toy_oracle sample_block 15 (replicate 16 0)
                          [5; 6; 7]))
              ((sample_block, replicate 15 0 ++ [4]) :: (sample_block, iv2)
                 :: queries (guess_loop toy_oracle sample_block 15
                               (replicate 16 0) [5; 6; 7]))).
Proof.
  apply (C3_last_byte_confirmation toy_oracle sample_block 15 4 [5; 6; 7]
           (replicate 16 0) (replicate 15 0 ++ [4])
           [10; 20; 30; 40; 50; 60; 70; 80; 90; 100; 110; 120; 130; 1; 2; 2]).
  - reflexivity.
  - reflexivity.
  - vm_compute. reflexivity.
  - vm_compute. reflexivity.
Defined.

Lemma C4_first_valid_guess_wins_witness :
  exists qs,
    probes_of sample_block 13 (partial_state sample_intermediate 14)
      (seqZ 0 (2 + 1)) qs /\
    guess_loop toy_oracle sample_block 13 (partial_state sample_intermediate 14)
      guesses =
      Traced (Ok (<[13%nat:=Z.lxor 2 (Z.of_nat (BLOCKSIZE - 13))]>
                    (partial_state sample_intermediate 14))) qs /\
    byte_loop toy_oracle sample_block (13%nat :: indices_after 13)
      (partial_state sample_intermediate 14) =
      (let rest := byte_loop toy_oracle sample_block (indices_after 13)
                     (<[13%nat:=Z.lxor 2 (Z.of_nat (BLOCKSIZE - 13))]>
                        (partial_state sample_intermediate 14)) in
       Traced (outcome rest) (qs ++ queries rest)) /\
    (forall i', 13%nat = S i' ->
       exists pre post, indices = pre ++ 13%nat :: i' :: post).
Proof.
  apply (C4_first_valid_guess_wins toy_oracle sample_block 13 2 (indices_after 13)
           (partial_state sample_intermediate 14)).
  - reflexivity.
  - apply forallb_is_byteb. reflexivity.
  - unfold BLOCKSIZE. lia.
  - unfold BLOCKSIZE. lia.
  - lia.
  - intros g' iv1 Hg Hp.
    assert (Hc : g' = 0 \/ g' = 1) by lia.
    destruct Hc as [-> | ->]; vm_compute in Hp; injection Hp as <-;
      eexists; vm_compute; reflexivity.
  - intros iv1 Hp. vm_compute in Hp. injection Hp as <-.
    eexists. vm_compute. reflexivity.
Defined.

Lemma C5_exhaustion_is_fatal_witness :
  outcome (attack_single_block never_valid toy_iv sample_block)
    = Raise (SystemExit 1) /\
  (forall rest plain,
     driver_loop never_valid (sample_block :: rest) plain toy_iv =
     Traced (Raise (SystemExit 1))
            (queries (attack_single_block never_valid toy_iv sample_block))) /\
  (forall iv0 ct res,
     sample_block ∈ split_blocks ct ->
     outcome (driver never_valid iv0 ct) <> Ok res).
Proof.
  apply (C5_exhaustion_is_fatal never_valid toy_iv sample_block 15
           (replicate BLOCKSIZE 0)).
  - unfold BLOCKSIZE. lia.
  - reflexivity.
  - intros g Hg. eexists. split.
    + apply probe_iv_ok; [reflexivity | apply forallb_is_byteb; reflexivity | exact Hg].
    + left. eexists. reflexivity.
Defined.

Lemma C6_decrypt_check_flag_witness :
  exists valid : bool,
    decrypt_check toy_decrypt {| key := toy_key |} sample_block toy_iv =
      Ok (zip_with Z.lxor (toy_decrypt toy_key sample_block) toy_iv, valid) /\
    (valid = true <->
     structurally_valid_pad
       (zip_with Z.lxor (toy_decrypt toy_key sample_block) toy_iv)) /\
    (valid = false <->
     ~ structurally_valid_pad
         (zip_with Z.lxor (toy_decrypt toy_key sample_block) toy_iv)).
Proof.
  apply (C6_decrypt_check_flag toy_decrypt {| key := toy_key |} sample_block toy_iv).
  - split; [reflexivity | apply forallb_is_byteb; reflexivity].
  - split; [reflexivity | apply forallb_is_byteb; reflexivity].
  - reflexivity.
Defined.

Lemma C8_recovered_bytes_kept_and_used_witness :
  sample_intermediate !! 14%nat = partial_state sample_intermediate 14 !! 14%nat /\
  (forall j, (14 < j)%nat ->
     partial_state sample_intermediate 14 !! j
       = partial_state sample_intermediate 15 !! j /\
     sample_intermediate !! j = partial_state sample_intermediate 15 !! j) /\
  (forall q,
     q ∈ queries (guess_loop toy_oracle sample_block 14
                    (partial_state sample_intermediate 15) guesses) ->
     q.1 = sample_block /\
     forall j, (14 < j < BLOCKSIZE)%nat ->
       exists d, partial_state sample_intermediate 15 !! j = Some d /\
                 q.2 !! j = Some (Z.lxor d (Z.of_nat (BLOCKSIZE - 14)))).
Proof.
  apply (C8_recovered_bytes_kept_and_used toy_oracle sample_block 14
           (indices_after 14) (partial_state sample_intermediate 15)
           (partial_state sample_intermediate 14) sample_intermediate).
  - unfold BLOCKSIZE. lia.
  - vm_compute. reflexivity.
  - vm_compute. reflexivity.
  - apply Forall_forall. intros k Hk. apply indices_after_lt in Hk. exact Hk.
  - vm_compute. reflexivity.
Defined.

Lemma C10_xor_lengths_agree_witness :
  (forall i (iv_list : list Z),
     (i < BLOCKSIZE)%nat ->
     outcome (byte_loop toy_oracle sample_block (indices_before i)
                (replicate BLOCKSIZE 0)) = Ok iv_list ->
     length (drop (i + 1) iv_list) = (BLOCKSIZE - (i + 1))%nat /\
     length (replicate (BLOCKSIZE - (i + 1)) (Z.of_nat (BLOCKSIZE - i)))
       = (BLOCKSIZE - (i + 1))%nat /\
     exists suf,
       xor (drop (i + 1) iv_list)
           (replicate (BLOCKSIZE - (i + 1)) (Z.of_nat (BLOCKSIZE - i))) = Ok suf) /\
  (forall iv_list : list Z,
     outcome (byte_loop toy_oracle sample_block indices (replicate BLOCKSIZE 0))
       = Ok iv_list ->
     length iv_list = BLOCKSIZE /\ exists plain, xor iv_list toy_iv = Ok plain) /\
  ((forall b v, toy_oracle b v <> Raise AssertionError) ->
   outcome (attack_single_block toy_oracle toy_iv sample_block)
     <> Raise AssertionError).
Proof.
  apply (C10_xor_lengths_agree toy_oracle toy_iv sample_block).
  - reflexivity.
  - apply forallb_is_byteb. reflexivity.
Defined.

(** C9, as stated, fails: against the demo oracle over the toy cipher
    the attack on [worst_block] succeeds after 4097 calls, one more than
    [BLOCKSIZE * 256]. *)
Lemma C9_counterexample :
  outcome (attack_single_block toy_oracle toy_iv worst_block)
    = Ok (zip_with Z.lxor worst_intermediate toy_iv) /\
  ~ (length (queries (attack_single_block toy_oracle toy_iv worst_block))
     <= BLOCKSIZE * 256)%nat.
Proof.
  split; [vm_compute; reflexivity|].
  assert (E : length (queries (attack_single_block toy_oracle toy_iv worst_block))
              = 4097%nat) by (vm_compute; reflexivity).
  rewrite E. unfold BLOCKSIZE. lia.
Qed.

Lemma C9_calls_per_block_bound_witness :
  (forall oracle,
     (length (queries (attack_single_block oracle toy_iv worst_block))
      <= (BLOCKSIZE + 1) * 256)%nat) /\
  (length (queries (attack_single_block
                      (decrypt_check toy_decrypt {| key := toy_key |})
                      toy_iv worst_block))
   <= BLOCKSIZE * 256 + 1)%nat.
Proof.
  apply (C9_calls_per_block_bound toy_decrypt {| key := toy_key |} toy_iv
           worst_block).
  - reflexivity.
  - split; [reflexivity | apply forallb_is_byteb; reflexivity].
Defined.

(** * Further properties of the code *)

(** ** [xor] *)

Lemma zip_lxor_comm (a b : list Z) : zip_with Z.lxor a b = zip_with Z.lxor b a.
Proof.
  revert b. induction a as [|x a IH]; intros [|y b]; simpl; try reflexivity.
  rewrite Z.lxor_comm, IH. reflexivity.
Qed.

(** X1.  On byte sequences [xor] raises [AssertionError] when the
    lengths differ; when they agree it returns a byte sequence of the same
    length, does not depend on the order of its arguments, and XORing the
    result with [b] again gives back [a]. *)
Theorem X1_xor_on_bytes (a b : list Z) :
  is_bytes a -> is_bytes b ->
  if decide (length a = length b)
  then exists c, xor a b = Ok c /\ length c = length a /\ is_bytes c /\
                 xor b a = Ok c /\ xor c b = Ok a
  else xor a b = Raise AssertionError.
Proof.
  intros Ha Hb. case_decide as Hl.
  - exists (zip_with Z.lxor a b).
    assert (Hc : is_bytes (zip_with Z.lxor a b)) by (apply is_bytes_zip_lxor; assumption).
    assert (Hlc : length (zip_with Z.lxor a b) = length a)
      by (rewrite length_zip_with; lia).
    repeat split; try assumption.
    + apply xor_ok; assumption.
    + rewrite zip_lxor_comm. apply xor_ok; [congruence | assumption | assumption].
    + rewrite xor_ok by (try assumption; congruence).
      rewrite zip_lxor_involutive by exact Hl. reflexivity.
  - unfold xor. rewrite decide_False by exact Hl. reflexivity.
Qed.

Lemma X1_xor_on_bytes_witness :
  exists c, xor [1; 2; 3] [255; 0; 3] = Ok c /\ length c = length [1; 2; 3] /\
            is_bytes c /\ xor [255; 0; 3] [1; 2; 3] = Ok c /\
            xor c [255; 0; 3] = Ok [1; 2; 3].
Proof.
  apply (X1_xor_on_bytes [1; 2; 3] [255; 0; 3]);
    apply forallb_is_byteb; reflexivity.
Defined.

(** ** The blocks of a ciphertext *)

Lemma split_blocks_short (ct : list Z) :
  (0 < length ct <= BLOCKSIZE)%nat -> split_blocks ct = [ct].
Proof.
  intros Hl. unfold split_blocks, block_starts.
  assert (E : Nat.div (length ct + BLOCKSIZE - 1) BLOCKSIZE = 1%nat).
  { symmetry. apply (Nat.div_unique _ _ _ (length ct - 1)); unfold BLOCKSIZE in *; lia. }
  rewrite E. cbn [seq fmap list_fmap]. change (0 * BLOCKSIZE)%nat with 0%nat.
  rewrite drop_0, take_ge by lia. reflexivity.
Qed.

Lemma split_blocks_long (ct : list Z) :
  (BLOCKSIZE < length ct)%nat ->
  split_blocks ct = take BLOCKSIZE ct :: split_blocks (drop BLOCKSIZE ct) /\
  split_blocks (drop BLOCKSIZE ct) <> [].
Proof.
  intros Hl. split.
  - rewrite <- (take_drop BLOCKSIZE ct) at 1.
    apply split_blocks_app. rewrite length_take. lia.
  - unfold split_blocks, block_starts. rewrite length_drop.
    assert (E : (1 <= Nat.div (length ct - BLOCKSIZE + BLOCKSIZE - 1) BLOCKSIZE)%nat).
    { apply Nat.div_le_lower_bound; unfold BLOCKSIZE in *; lia. }
    destruct (Nat.div _ _); [lia|]. discriminate.
Qed.

(** X2.  The split of line 106 loses nothing: the blocks concatenate
    back to the ciphertext, none is empty or longer than [BLOCKSIZE], and
    all but the last have exactly [BLOCKSIZE] bytes. *)
Theorem X2_split_blocks_lossless (ct : list Z) :
  concat (split_blocks ct) = ct /\
  Forall (fun b => (0 < length b <= BLOCKSIZE)%nat) (split_blocks ct) /\
  Forall (fun b => length b = BLOCKSIZE)
         (take (length (split_blocks ct) - 1) (split_blocks ct)).
Proof.
  pose proof BLOCKSIZE_eq as HB.
  remember (length ct) as n eqn:Hn. revert ct Hn.
  induction n as [n IH] using lt_wf_ind. intros ct Hn.
  destruct (decide (n = 0%nat)) as [Hz|Hz].
  - subst n. destruct ct; [|discriminate]. repeat split; constructor.
  - destruct (decide (n <= BLOCKSIZE)%nat) as [Hs|Hs].
    + rewrite split_blocks_short by lia. cbn [concat length Nat.sub take].
      rewrite app_nil_r.
      split; [reflexivity | split; [constructor; [lia | constructor] | constructor]].
    + destruct (split_blocks_long ct ltac:(lia)) as [E Hne]. rewrite E.
      assert (Hlt : (length (drop BLOCKSIZE ct) < n)%nat).
      { rewrite length_drop. lia. }
      destruct (IH _ Hlt (drop BLOCKSIZE ct) eq_refl) as (I1 & I2 & I3).
      split; [|split].
      * cbn [concat]. rewrite I1. apply take_drop.
      * constructor; [|exact I2]. rewrite length_take. lia.
      * destruct (split_blocks (drop BLOCKSIZE ct)) as [|b rest] eqn:Er;
          [congruence|].
        cbn [length Nat.sub]. rewrite ?Nat.sub_0_r.
        cbn [length Nat.sub] in I3. rewrite ?Nat.sub_0_r in I3.
        cbn [take]. constructor; [|exact I3]. rewrite length_take. lia.
Qed.

(** ** The attack against an arbitrary oracle *)

Section MoreAttackFacts.

Variable oracle : list Z -> list Z -> result (list Z * bool).

Lemma confirm_iv_inv i (iv1 iv2 : list Z) :
  confirm_iv i iv1 = Ok iv2 ->
  exists x, iv1 !! (i - 1)%nat = Some x /\
            iv2 = <[(i - 1)%nat:=(x + 1) `mod` 256]> iv1.
Proof.
  unfold confirm_iv, getitem.
  destruct (iv1 !! (i - 1)%nat) as [x|] eqn:Hx; [|discriminate].
  cbn [mbind result_bind]. rewrite to_bytes1_ok
    by (unfold is_byte; apply Z.mod_pos_bound; lia).
  cbn [mbind result_bind mret result_ret]. intros [= <-]. exists x.
  split; [reflexivity|]. apply take_drop_insert.
  exact (lookup_lt_Some _ _ _ Hx).
Qed.

Local Ltac solve_wf :=
  repeat (constructor; [split; [reflexivity | assumption]|]);
  first [assumption | constructor].

Lemma guess_loop_queries_wf block i (iv_list : list Z) gs :
  length iv_list = BLOCKSIZE -> (i < BLOCKSIZE)%nat ->
  Forall (fun q : query => q.1 = block /\ is_block q.2)
         (queries (guess_loop oracle block i iv_list gs)).
Proof.
  intros Hlen Hi. induction gs as [|g gs IH]; [constructor|].
  destruct (probe_iv i g iv_list) as [iv1|e] eqn:Hp.
  2:{ rewrite (guess_loop_probe_Raise _ _ _ _ _ _ _ Hp). constructor. }
  rewrite (guess_loop_step _ _ _ _ _ _ _ Hp).
  assert (H1 : is_block iv1).
  { split; [exact (probe_iv_length _ _ _ _ Hlen Hi Hp) | exact (probe_iv_bytes _ _ _ _ Hp)]. }
  assert (H2 : forall iv2, confirm_iv i iv1 = Ok iv2 -> is_block iv2).
  { intros iv2 Hc. apply confirm_iv_inv in Hc as (x & _ & ->). destruct H1 as [L B].
    split; [rewrite length_insert; exact L|].
    apply is_bytes_insert; [exact B|]. unfold is_byte. apply Z.mod_pos_bound. lia. }
  destruct (oracle block iv1) as [[dk [|]]|e]; cbn [queries]; [|solve_wf..].
  case_decide as Hl; [|solve_wf].
  destruct (confirm_iv i iv1) as [iv2|e] eqn:Hc; [|solve_wf].
  specialize (H2 iv2 eq_refl).
  destruct (oracle block iv2) as [[dk2 [|]]|e]; cbn [queries]; solve_wf.
Qed.

Lemma byte_loop_queries_wf block idxs (iv_list : list Z) :
  length iv_list = BLOCKSIZE -> is_bytes iv_list ->
  Forall (fun i => (i < BLOCKSIZE)%nat) idxs ->
  Forall (fun q : query => q.1 = block /\ is_block q.2)
         (queries (byte_loop oracle block idxs iv_list)).
Proof.
  intros Hlen Hb Hidx. revert iv_list Hlen Hb.
  induction Hidx as [|i idxs Hi Hidx IH]; intros iv_list Hlen Hb; [constructor|].
  rewrite byte_loop_cons, queries_bind. apply Forall_app. split.
  - apply guess_loop_queries_wf; assumption.
  - destruct (outcome (guess_loop oracle block i iv_list guesses)) as [d|e] eqn:Hg;
      [|constructor].
    destruct (byte_loop_inv oracle block [i] iv_list d Hlen Hb) as (H1 & H2 & _).
    + constructor; [exact Hi | constructor].
    + rewrite byte_loop_cons, outcome_bind, Hg. reflexivity.
    + apply IH; assumption.
Qed.

(** X3.  Whatever the oracle answers, every call the attack makes is on
    the block under attack, with an IV of exactly [BLOCKSIZE] bytes. *)
Theorem X3_probes_well_formed iv block :
  Forall (fun q : query => q.1 = block /\ is_block q.2)
         (queries (attack_single_block oracle iv block)).
Proof.
  unfold attack_single_block. rewrite queries_bind. apply Forall_app. split.
  - destruct zero_iv_block as [Hz1 Hz2].
    apply byte_loop_queries_wf; [exact Hz1 | exact Hz2 | apply indices_lt].
  - destruct (outcome _); constructor.
Qed.

(** A returned plaintext block is a block, and the predecessor had the
    block size. *)
Lemma attack_outcome_shape iv block plain :
  outcome (attack_single_block oracle iv block) = Ok plain ->
  length iv = BLOCKSIZE /\ is_block plain.
Proof.
  unfold attack_single_block. rewrite outcome_bind.
  destruct (outcome (byte_loop oracle block indices (replicate BLOCKSIZE 0)))
    as [d|e] eqn:Hrun; [|discriminate].
  destruct zero_iv_block as [Hz1 Hz2].
  destruct (byte_loop_inv _ _ _ _ _ Hz1 Hz2 indices_lt Hrun) as (Hl & Hb & _).
  cbn [lift outcome]. unfold xor. case_decide as Hlen; [|discriminate].
  intros Hx. apply bytes_of_inv in Hx as [-> Hx].
  split; [congruence|]. split; [|exact Hx]. rewrite length_zip_with; lia.
Qed.

(** X4.  Whatever the oracle answers, when the attack returns a
    plaintext block, that block has exactly [BLOCKSIZE] bytes and the
    predecessor handed in had [BLOCKSIZE] bytes too. *)
Theorem X4_attack_result_is_block iv block plain :
  outcome (attack_single_block oracle iv block) = Ok plain ->
  length iv = BLOCKSIZE /\ is_block plain.
Proof. apply attack_outcome_shape. Qed.

(** X5.  With a predecessor that has not [BLOCKSIZE] bytes the attack
    never returns a plaintext, and the length is only checked at the very
    end: when all [BLOCKSIZE] bytes have been recovered, the attack ends in
    an [AssertionError] after all the oracle calls have been made. *)
Theorem X5_predecessor_length_checked_last iv block :
  length iv <> BLOCKSIZE ->
  (forall plain, outcome (attack_single_block oracle iv block) <> Ok plain) /\
  (forall iv_list,
     outcome (byte_loop oracle block indices (replicate BLOCKSIZE 0)) = Ok iv_list ->
     attack_single_block oracle iv block =
     Traced (Raise AssertionError)
            (queries (byte_loop oracle block indices (replicate BLOCKSIZE 0)))).
Proof.
  intros Hne. split.
  - intros plain H. apply attack_outcome_shape in H as [H _]. contradiction.
  - intros iv_list Hrun. unfold attack_single_block, mbind, traced_bind.
    rewrite Hrun. cbn [lift outcome queries]. rewrite app_nil_r.
    destruct zero_iv_block as [Hz1 Hz2].
    destruct (byte_loop_inv _ _ _ _ _ Hz1 Hz2 indices_lt Hrun) as (Hl & _ & _).
    unfold xor. rewrite decide_False by congruence. reflexivity.
Qed.


(** A successful guess loop has made at least one call, and at least
    two at the last index. *)
Lemma guess_loop_queries_ge block i (iv_list iv_list' : list Z) gs :
  outcome (guess_loop oracle block i iv_list gs) = Ok iv_list' ->
  (calls_per_guess i <= length (queries (guess_loop oracle block i iv_list gs)))%nat.
Proof.
  induction gs as [|g gs IH]; [discriminate|].
  destruct (probe_iv i g iv_list) as [iv1|e] eqn:Hp.
  2:{ rewrite (guess_loop_probe_Raise _ _ _ _ _ _ _ Hp). discriminate. }
  rewrite (guess_loop_step _ _ _ _ _ _ _ Hp). unfold calls_per_guess in *.
  destruct (decide (i = (BLOCKSIZE - 1)%nat)) as [Hi|Hi];
    destruct (oracle block iv1) as [[dk [|]]|e]; cbn [outcome queries length];
    try discriminate; try (intros H; specialize (IH H); lia); try (intros _; lia).
  destruct (confirm_iv i iv1) as [iv2|e]; [|discriminate].
  destruct (oracle block iv2) as [[dk2 [|]]|e]; cbn [outcome queries length];
    try discriminate; try (intros H; specialize (IH H); lia); intros _; lia.
Qed.

Lemma byte_loop_queries_ge block idxs (iv_list iv_list' : list Z) :
  outcome (byte_loop oracle block idxs iv_list) = Ok iv_list' ->
  (sum_list_with calls_per_guess idxs
   <= length (queries (byte_loop oracle block idxs iv_list)))%nat.
Proof.
  revert iv_list. induction idxs as [|i idxs IH]; intros iv_list.
  - intros _. cbn. lia.
  - rewrite byte_loop_cons, outcome_bind, queries_bind, length_app.
    destruct (outcome (guess_loop oracle block i iv_list guesses)) as [d|e] eqn:Hg;
      [|discriminate].
    intros Hrest. specialize (IH d Hrest).
    pose proof (guess_loop_queries_ge block i iv_list d guesses Hg).
    cbn [sum_list_with]. lia.
Qed.

(** X7.  Whatever the oracle answers, an attack that returns a
    plaintext block has made at least [BLOCKSIZE + 1] calls: one per index
    and one confirmation call. *)
Theorem X7_calls_lower_bound iv block plain :
  outcome (attack_single_block oracle iv block) = Ok plain ->
  (BLOCKSIZE + 1 <= length (queries (attack_single_block oracle iv block)))%nat.
Proof.
  unfold attack_single_block. rewrite outcome_bind, queries_bind, length_app.
  destruct (outcome (byte_loop oracle block indices (replicate BLOCKSIZE 0)))
    as [d|e] eqn:Hrun; [|discriminate].
  intros _. pose proof (byte_loop_queries_ge _ _ _ _ Hrun) as H.
  assert (E : sum_list_with calls_per_guess indices = (BLOCKSIZE + 1)%nat)
    by (vm_compute; reflexivity).
  rewrite E in H. lia.
Qed.

(** ** The driver against an arbitrary oracle *)

Lemma driver_loop_outcome_shape blocks plain0 prev plain :
  outcome (driver_loop oracle blocks plain0 prev) = Ok plain ->
  length plain = (length plain0 + length blocks * BLOCKSIZE)%nat /\
  (is_bytes plain0 -> is_bytes plain).
Proof.
  revert plain0 prev. induction blocks as [|b blocks IH]; intros plain0 prev.
  - cbn. intros [= <-]. split; [lia | auto].
  - cbn [driver_loop]. rewrite outcome_bind.
    destruct (outcome (attack_single_block oracle prev b)) as [pb|e] eqn:Hb;
      [|discriminate].
    apply attack_outcome_shape in Hb as (_ & Hl & Hbb).
    intros H. apply IH in H as [H1 H2]. split.
    + rewrite H1, length_app. cbn [length]. lia.
    + intros H0. apply H2. apply Forall_app. split; assumption.
Qed.

Lemma split_blocks_length (ct : list Z) :
  length (split_blocks ct) = block_count ct.
Proof.
  unfold split_blocks, block_starts, block_count.
  rewrite !length_fmap, length_seq. reflexivity.
Qed.

(** X8.  Whatever the oracle answers, a plaintext returned by the
    driver has [BLOCKSIZE] bytes for every block of the ciphertext, a
    partial last block included: nothing is stripped. *)
Theorem X8_driver_result_length iv ct plain :
  outcome (driver oracle iv ct) = Ok plain ->
  length plain = (block_count ct * BLOCKSIZE)%nat /\ is_bytes plain.
Proof.
  unfold driver. intros H. apply driver_loop_outcome_shape in H as [H1 H2].
  rewrite split_blocks_length in H1. split; [exact H1|]. apply H2. constructor.
Qed.

Lemma driver_loop_queries_le blocks plain0 prev :
  (length (queries (driver_loop oracle blocks plain0 prev))
   <= length blocks * ((BLOCKSIZE + 1) * 256))%nat.
Proof.
  revert plain0 prev. induction blocks as [|b blocks IH]; intros plain0 prev.
  - cbn. lia.
  - cbn [driver_loop]. rewrite queries_bind, length_app.
    pose proof (attack_queries_le oracle prev b) as Hb.
    destruct (outcome (attack_single_block oracle prev b)) as [pb|e].
    + specialize (IH (plain0 ++ pb) b). cbn [length]. lia.
    + cbn [length]. lia.
Qed.

(** X9.  Whatever the oracle answers, the driver makes at most
    [(BLOCKSIZE + 1) * 256] calls per block of the ciphertext. *)
Theorem X9_driver_calls_bound iv ct :
  (length (queries (driver oracle iv ct))
   <= block_count ct * ((BLOCKSIZE + 1) * 256))%nat.
Proof.
  unfold driver. rewrite <- split_blocks_length. apply driver_loop_queries_le.
Qed.

End MoreAttackFacts.

(** ** Oracles that always give the same answer *)

Section ConstantOracles.

Variable oracle : list Z -> list Z -> result (list Z * bool).

Lemma probe_iv_last_zero g :
  is_byte g ->
  probe_iv (BLOCKSIZE - 1) g (replicate BLOCKSIZE 0)
  = Ok (replicate (BLOCKSIZE - 1) 0 ++ [g]).
Proof.
  intros Hg. destruct zero_iv_block as [Hz1 Hz2].
  rewrite (probe_iv_ok _ g _ Hz1 Hz2 Hg). reflexivity.
Qed.

Lemma guess_loop_never_valid block gs :
  (forall b v, exists dk, oracle b v = Ok (dk, false)) ->
  Forall is_byte gs ->
  guess_loop oracle block (BLOCKSIZE - 1) (replicate BLOCKSIZE 0) gs =
  Traced (Raise (SystemExit 1))
         ((fun g => (block, replicate (BLOCKSIZE - 1) 0 ++ [g])) <$> gs).
Proof.
  intros Hnv Hgs. induction Hgs as [|g gs Hg Hgs IH]; [reflexivity|].
  rewrite (guess_loop_step _ _ _ _ _ _ _ (probe_iv_last_zero g Hg)).
  destruct (Hnv block (replicate (BLOCKSIZE - 1) 0 ++ [g])) as [dk ->].
  rewrite IH. reflexivity.
Qed.

(** X10.  Against an oracle that answers "invalid" to every call the
    attack makes exactly the 256 calls of the last index, with the IVs
    [0 ... 0 g] for [g] = 0, ..., 255 in that order, and ends in
    [exit(1)]. *)
Theorem X10_never_valid_oracle iv block :
  (forall b v, exists dk, oracle b v = Ok (dk, false)) ->
  attack_single_block oracle iv block =
  Traced (Raise (SystemExit 1))
         ((fun g => (block, replicate (BLOCKSIZE - 1) 0 ++ [g])) <$> guesses).
Proof.
  intros Hnv. unfold attack_single_block.
  assert (Ei : indices = (BLOCKSIZE - 1)%nat :: indices_after (BLOCKSIZE - 1))
    by reflexivity.
  rewrite Ei, byte_loop_cons.
  rewrite (guess_loop_never_valid block guesses Hnv is_bytes_guesses).
  reflexivity.
Qed.

Lemma pad_values_length : length pad_values = BLOCKSIZE.
Proof. reflexivity. Qed.

Lemma pad_values_lookup i :
  (i < BLOCKSIZE)%nat -> pad_values !! i = Some (Z.of_nat (BLOCKSIZE - i)).
Proof.
  intros Hi. unfold pad_values. rewrite list_lookup_fmap, lookup_seq_lt by exact Hi.
  reflexivity.
Qed.

Lemma pad_values_bytes : is_bytes pad_values.
Proof. apply forallb_is_byteb. reflexivity. Qed.

Lemma guess_loop_always_valid block i :
  (forall b v, exists dk, oracle b v = Ok (dk, true)) ->
  (i < BLOCKSIZE)%nat ->
  exists qs,
    guess_loop oracle block i (partial_state pad_values (S i)) guesses
    = Traced (Ok (partial_state pad_values i)) qs /\
    length qs = calls_per_guess i.
Proof.
  intros Hv Hi.
  pose proof (partial_state_length pad_values (S i) pad_values_length Hi) as Hst.
  pose proof (partial_state_bytes pad_values (S i) pad_values_bytes) as Hsb.
  assert (Eg : guesses = 0 :: seqZ 1 255) by reflexivity.
  assert (H0 : is_byte 0) by (unfold is_byte; lia).
  pose proof (probe_iv_ok i 0 _ Hst Hsb H0) as Hp.
  set (iv1 := take i _ ++ _) in Hp.
  pose proof (probe_iv_length i 0 _ _ Hst Hi Hp) as Hl1.
  rewrite Eg, (guess_loop_step _ _ _ _ _ _ _ Hp).
  destruct (Hv block iv1) as [dk ->].
  assert (Hset : setitem (partial_state pad_values (S i)) i
                   (Z.lxor 0 (Z.of_nat (BLOCKSIZE - i)))
                 = Ok (partial_state pad_values i)).
  { rewrite setitem_ok by lia. f_equal. rewrite Z.lxor_0_l.
    apply partial_state_insert; [exact pad_values_length | apply pad_values_lookup, Hi]. }
  unfold calls_per_guess. case_decide as Hl.
  - destruct (lookup_lt_is_Some_2 iv1 (i - 1)) as [y Hy]; [lia|].
    rewrite (confirm_iv_ok i iv1 y Hy).
    destruct (Hv block (take (i - 1) iv1 ++ [(y + 1) `mod` 256]
                          ++ drop (i - 1 + 1) iv1)) as [dk2 ->].
    rewrite Hset. eexists. split; reflexivity.
  - rewrite Hset. eexists. split; reflexivity.
Qed.

Lemma byte_loop_always_valid block n :
  (forall b v, exists dk, oracle b v = Ok (dk, true)) ->
  (n <= BLOCKSIZE)%nat ->
  exists qs,
    byte_loop oracle block (indices_after n) (partial_state pad_values n)
    = Traced (Ok pad_values) qs /\
    length qs = sum_list_with calls_per_guess (indices_after n).
Proof.
  intros Hv. induction n as [|n IH]; intros Hn.
  - exists []. split; reflexivity.
  - destruct (guess_loop_always_valid block n Hv ltac:(lia)) as (qs1 & E1 & L1).
    destruct (IH ltac:(lia)) as (qs2 & E2 & L2).
    exists (qs1 ++ qs2). rewrite indices_after_S, byte_loop_cons, E1.
    unfold mbind, traced_bind. cbn [outcome queries]. rewrite E2.
    cbn [outcome queries sum_list_with]. split; [reflexivity|].
    rewrite length_app. lia.
Qed.

(** X11.  Against an oracle that answers "valid" to every call the
    attack accepts the guess 0 at every index: it makes [BLOCKSIZE + 1]
    calls and returns the pad values 16, 15, ..., 1 XORed with the
    predecessor, whatever the block is. *)
Theorem X11_always_valid_oracle iv block :
  (forall b v, exists dk, oracle b v = Ok (dk, true)) ->
  is_block iv ->
  outcome (attack_single_block oracle iv block)
    = Ok (zip_with Z.lxor pad_values iv) /\
  length (queries (attack_single_block oracle iv block)) = (BLOCKSIZE + 1)%nat.
Proof.
  intros Hv [Hl Hb].
  destruct (byte_loop_always_valid block BLOCKSIZE Hv (Nat.le_refl _))
    as (qs & E & L).
  assert (Ez : partial_state pad_values BLOCKSIZE = replicate BLOCKSIZE 0)
    by reflexivity.
  assert (Ei : indices_after BLOCKSIZE = indices) by reflexivity.
  assert (Es : sum_list_with calls_per_guess indices = (BLOCKSIZE + 1)%nat)
    by (vm_compute; reflexivity).
  rewrite Ez, Ei in E. rewrite Ei, Es in L.
  unfold attack_single_block. rewrite E.
  unfold mbind, traced_bind. cbn [outcome queries lift].
  rewrite (xor_ok pad_values iv);
    [| rewrite pad_values_length; congruence | exact pad_values_bytes | exact Hb].
  rewrite app_nil_r. split; [reflexivity | exact L].
Qed.

End ConstantOracles.

(** ** The demo oracle on malformed and on its own inputs *)

Section MoreOracleFacts.

Variables aes_encrypt aes_decrypt : list Z -> list Z -> list Z.

Lemma decrypt_check_cases self (ct iv : list Z) :
  decrypt_check aes_decrypt self ct iv =
  if decide (length iv = BLOCKSIZE) then
    if decide ((length ct mod BLOCKSIZE)%nat = 0%nat) then
      Ok (cbc_decrypt_blocks aes_decrypt (key self) iv (split_blocks ct),
          valid_padding
            (cbc_decrypt_blocks aes_decrypt (key self) iv (split_blocks ct)))
    else Raise ValueError
  else Raise ValueError.
Proof.
  unfold decrypt_check, AES_new, cbc_decrypt.
  destruct (decide (length iv = BLOCKSIZE)) as [Hiv|Hiv]; [|reflexivity].
  cbn [mbind result_bind fst snd].
  destruct (decide ((length ct mod BLOCKSIZE)%nat = 0%nat)) as [Hct|Hct];
    [|reflexivity].
  cbn [mbind result_bind]. unfold valid_padding.
  destruct (unpad _ BLOCKSIZE) as [u|e] eqn:Hu; [reflexivity|].
  apply unpad_Raise in Hu as ->. reflexivity.
Qed.

(** X12.  [decrypt_check] raises exactly when the IV has not
    [BLOCKSIZE] bytes or the length of the ciphertext is not a multiple of
    [BLOCKSIZE], and then it is a [ValueError]: the error of a failed
    padding check is the only one it turns into the flag. *)
Theorem X12_decrypt_check_raises self (ct iv : list Z) :
  (decrypt_check aes_decrypt self ct iv = Raise ValueError <->
   length iv <> BLOCKSIZE \/ (length ct mod BLOCKSIZE)%nat <> 0%nat) /\
  (forall e, decrypt_check aes_decrypt self ct iv = Raise e -> e = ValueError).
Proof.
  rewrite decrypt_check_cases.
  destruct (decide (length iv = BLOCKSIZE)) as [Hiv|Hiv];
    [destruct (decide ((length ct mod BLOCKSIZE)%nat = 0%nat)) as [Hct|Hct]|].
  - split; [split|]; [discriminate | intros [?|?]; contradiction | discriminate].
  - split; [split|]; [intros _; right; exact Hct | reflexivity | congruence].
  - split; [split|]; [intros _; left; exact Hiv | reflexivity | congruence].
Qed.

(** X13.  For the empty ciphertext and an IV of [BLOCKSIZE] bytes
    [decrypt_check] does not raise: it reports invalid padding. *)
Theorem X13_decrypt_check_empty self (iv : list Z) :
  length iv = BLOCKSIZE ->
  decrypt_check aes_decrypt self [] iv = Ok ([], false).
Proof.
  intros Hiv. rewrite decrypt_check_cases, decide_True by exact Hiv.
  reflexivity.
Qed.

(** [unpad] undoes [pad]. *)
Lemma unpad_pad (message : list Z) :
  unpad (pad message BLOCKSIZE) BLOCKSIZE = Ok message.
Proof.
  pose proof BLOCKSIZE_eq as HB.
  pose proof (pad_length message) as Hlen.
  pose proof (Nat.mod_upper_bound (length message) BLOCKSIZE ltac:(lia)) as Hr.
  assert (Hmod : (length (pad message BLOCKSIZE) mod BLOCKSIZE)%nat = 0%nat)
    by (rewrite Hlen; apply Nat.Div0.mod_mul).
  set (n := (BLOCKSIZE - length message mod BLOCKSIZE)%nat).
  assert (Hn : (1 <= n <= BLOCKSIZE)%nat) by (unfold n; lia).
  assert (Epad : pad message BLOCKSIZE = message ++ replicate n (Z.of_nat n))
    by reflexivity.
  assert (Hl : length (pad message BLOCKSIZE) = (length message + n)%nat)
    by (rewrite Epad, length_app, length_replicate; reflexivity).
  assert (Hlast : pad message BLOCKSIZE !! (length (pad message BLOCKSIZE) - 1)%nat
                  = Some (Z.of_nat n)).
  { rewrite Hl, Epad, lookup_app_r by lia. apply lookup_replicate_2. lia. }
  assert (Hdrop : drop (length (pad message BLOCKSIZE) - n) (pad message BLOCKSIZE)
                  = replicate n (Z.of_nat n)).
  { rewrite Hl, Epad. replace (length message + n - n)%nat with (length message) by lia.
    apply drop_app_length. }
  assert (Htake : take (length (pad message BLOCKSIZE) - n) (pad message BLOCKSIZE)
                  = message).
  { rewrite Hl, Epad. replace (length message + n - n)%nat with (length message) by lia.
    apply take_app_length. }
  clear Hlen Epad. revert Hmod Hl Hlast Hdrop Htake.
  generalize (pad message BLOCKSIZE). intros padded Hmod Hl Hlast Hdrop Htake.
  unfold unpad, getitem.
  destruct (decide (length padded = 0%nat)) as [Hz|_]; [lia|].
  destruct (decide ((length padded mod BLOCKSIZE)%nat <> 0%nat)) as [Hnz|_];
    [contradiction|].
  rewrite Hlast. cbn [mbind result_bind].
  destruct (decide (Z.of_nat n < 1 \/
                    Z.of_nat n > Z.of_nat (BLOCKSIZE `min` length padded)))
    as [Hbad|_]; [lia|].
  rewrite Nat2Z.id, Hdrop, Htake.
  destruct (decide (replicate n (Z.of_nat n) <> replicate n (Z.of_nat n)))
    as [Hbad|_]; [contradiction|]. reflexivity.
Qed.

Lemma length_concat_blocks (bs : list (list Z)) :
  Forall (fun b => length b = BLOCKSIZE) bs ->
  length (concat bs) = (length bs * BLOCKSIZE)%nat.
Proof.
  induction 1 as [|b bs Hb _ IH]; [reflexivity|].
  cbn [concat length]. rewrite length_app, IH, Hb. lia.
Qed.


Lemma is_block_length_Forall (bs : list (list Z)) :
  Forall is_block bs -> Forall (fun b => length b = BLOCKSIZE) bs.
Proof. intros H. eapply Forall_impl; [exact H|]. intros b [Hb _]. exact Hb. Qed.

(** [encrypt] in terms of the blocks of the padded message. *)
Lemma encrypt_chain k (fresh_iv message : list Z) :
  length fresh_iv = BLOCKSIZE -> is_bytes message ->
  exists bs, pad message BLOCKSIZE = concat bs /\ Forall is_block bs /\
    encrypt aes_encrypt {| key := k |} fresh_iv message
    = Ok (fresh_iv, concat (cbc_chain aes_encrypt k fresh_iv bs)).
Proof.
  intros Hiv Hm.
  destruct (blocks_of_multiple _ _ (pad_length message) (pad_bytes message Hm))
    as (bs & Ebs & Hbs).
  exists bs. split; [exact Ebs | split; [exact Hbs|]].
  unfold encrypt, AES_new, cbc_encrypt.
  rewrite decide_True by exact Hiv. cbn [mbind result_bind key fst snd].
  rewrite decide_True by (rewrite pad_length; apply Nat.Div0.mod_mul).
  rewrite Ebs at 1.
  rewrite split_blocks_concat by (apply is_block_length_Forall, Hbs).
  rewrite cbc_encrypt_blocks_chain. reflexivity.
Qed.

Hypothesis aes_encrypt_block :
  forall k p, is_block p -> is_block (aes_encrypt k p).


Hypothesis aes_decrypt_encrypt :
  forall k p, is_block p -> aes_decrypt k (aes_encrypt k p) = p.

Lemma cbc_decrypt_chain k prev (bs : list (list Z)) :
  is_block prev -> Forall is_block bs ->
  cbc_decrypt_blocks aes_decrypt k prev (cbc_chain aes_encrypt k prev bs)
  = concat bs.
Proof.
  intros Hprev Hbs. revert prev Hprev.
  induction Hbs as [|p rest Hp _ IH]; intros prev Hprev; [reflexivity|].
  cbn [cbc_chain cbc_decrypt_blocks concat].
  pose proof (is_block_zip_lxor p prev Hp Hprev) as Hx.
  rewrite aes_decrypt_encrypt by exact Hx.
  rewrite zip_lxor_involutive by (destruct Hp, Hprev; congruence).
  rewrite IH by (apply aes_encrypt_block, Hx). reflexivity.
Qed.

(** X15.  The oracle accepts its own ciphertexts: for every key, drawn
    IV and message, [decrypt_check] on the output of [encrypt] returns the
    padded message with the flag true, and these are the values the
    [__main__] block of [DemoOracle.py] prints.  The first component is
    the CBC plaintext, the block decryption XORed with the IV. *)
Theorem X15_oracle_accepts_own_ciphertext k (fresh_iv message : list Z) :
  is_block fresh_iv -> is_bytes message ->
  exists ct,
    encrypt aes_encrypt {| key := k |} fresh_iv message = Ok (fresh_iv, ct) /\
    decrypt_check aes_decrypt {| key := k |} ct fresh_iv
      = Ok (pad message BLOCKSIZE, true) /\
    demo_main aes_encrypt aes_decrypt k fresh_iv message
      = Ok (fresh_iv, ct, pad message BLOCKSIZE, true).
Proof.
  intros Hiv Hm.
  destruct (encrypt_chain k fresh_iv message (proj1 Hiv) Hm) as (bs & Ebs & Hbs & Henc).
  pose proof (cbc_chain_blocks aes_encrypt aes_encrypt_block k fresh_iv bs Hiv Hbs)
    as Hcs.
  assert (Hdec : decrypt_check aes_decrypt {| key := k |}
                   (concat (cbc_chain aes_encrypt k fresh_iv bs)) fresh_iv
                 = Ok (pad message BLOCKSIZE, true)).
  { rewrite decrypt_check_cases, decide_True by exact (proj1 Hiv).
    rewrite decide_True.
    2:{ rewrite length_concat_blocks by (apply is_block_length_Forall, Hcs).
        apply Nat.Div0.mod_mul. }
    rewrite split_blocks_concat by (apply is_block_length_Forall, Hcs).
    cbn [key]. rewrite cbc_decrypt_chain by assumption. rewrite <- Ebs.
    unfold valid_padding. rewrite unpad_pad. reflexivity. }
  eexists. split; [exact Henc | split; [exact Hdec|]].
  unfold demo_main. rewrite Henc. cbn [mbind result_bind].
  rewrite Hdec. reflexivity.
Qed.

End MoreOracleFacts.

Section DecryptionOracle.

Variable aes_decrypt : list Z -> list Z -> list Z.

(** X16.  The attack decrypts any block, not only one that [encrypt]
    produced: for every block of [BLOCKSIZE] bytes and every predecessor
    block it returns the block decryption XORed with the predecessor. *)
Theorem X16_attack_decrypts_any_block self (c prev : list Z) :
  length c = BLOCKSIZE ->
  is_block (aes_decrypt (key self) c) ->
  is_block prev ->
  outcome (attack_single_block (decrypt_check aes_decrypt self) prev c)
  = Ok (zip_with Z.lxor (aes_decrypt (key self) c) prev).
Proof. apply attack_recovers. Qed.


Hypothesis aes_decrypt_block :
  forall k c, is_block c -> is_block (aes_decrypt k c).



End DecryptionOracle.

(** ** Instances of the further properties *)


Lemma never_valid_spec b v : exists dk, never_valid b v = Ok (dk, false).
Proof. eexists. reflexivity. Qed.

Lemma always_valid_spec b v : exists dk, always_valid b v = Ok (dk, true).
Proof. eexists. reflexivity. Qed.

Lemma long_secret_message_bytes : is_bytes long_secret_message.
Proof. apply forallb_is_byteb. reflexivity. Qed.

Lemma X4_attack_result_is_block_witness :
  length toy_iv = BLOCKSIZE /\
  is_block [11; 22; 29; 44; 55; 58; 65; 88; 83; 110; 101; 116; 143; 15; 13; 22].
Proof.
  apply (X4_attack_result_is_block toy_oracle toy_iv sample_block).
  vm_compute. reflexivity.
Defined.

Lemma X5_predecessor_length_checked_last_witness :
  (forall plain,
     outcome (attack_single_block toy_oracle [1; 2; 3] sample_block) <> Ok plain) /\
  (forall iv_list,
     outcome (byte_loop toy_oracle sample_block indices (replicate BLOCKSIZE 0))
       = Ok iv_list ->
     attack_single_block toy_oracle [1; 2; 3] sample_block =
     Traced (Raise AssertionError)
            (queries (byte_loop toy_oracle sample_block indices
                        (replicate BLOCKSIZE 0)))).
Proof.
  apply (X5_predecessor_length_checked_last toy_oracle [1; 2; 3] sample_block).
  discriminate.
Defined.


Lemma X7_calls_lower_bound_witness :
  (BLOCKSIZE + 1
   <= length (queries (attack_single_block toy_oracle toy_iv sample_block)))%nat.
Proof.
  apply (X7_calls_lower_bound toy_oracle toy_iv sample_block
           [11; 22; 29; 44; 55; 58; 65; 88; 83; 110; 101; 116; 143; 15; 13; 22]).
  vm_compute. reflexivity.
Defined.

Lemma X8_driver_result_length_witness :
  length (zip_with Z.lxor pad_values toy_iv
            ++ zip_with Z.lxor pad_values sample_block)
    = (block_count (sample_block ++ [1; 2; 3]%Z) * BLOCKSIZE)%nat /\
  is_bytes (zip_with Z.lxor pad_values toy_iv
              ++ zip_with Z.lxor pad_values sample_block).
Proof.
  apply (X8_driver_result_length always_valid toy_iv (sample_block ++ [1; 2; 3])).
  vm_compute. reflexivity.
Defined.

Lemma X10_never_valid_oracle_witness :
  attack_single_block never_valid toy_iv sample_block =
  Traced (Raise (SystemExit 1))
         ((fun g => (sample_block, replicate (BLOCKSIZE - 1) 0 ++ [g])) <$> guesses).
Proof.
  apply (X10_never_valid_oracle never_valid toy_iv sample_block).
  intros b v. eexists. reflexivity.
Defined.

Lemma X11_always_valid_oracle_witness :
  outcome (attack_single_block always_valid toy_iv sample_block)
    = Ok (zip_with Z.lxor pad_values toy_iv) /\
  length (queries (attack_single_block always_valid toy_iv sample_block))
    = (BLOCKSIZE + 1)%nat.
Proof.
  apply (X11_always_valid_oracle always_valid toy_iv sample_block).
  - intros b v. eexists. reflexivity.
  - split; [reflexivity | apply forallb_is_byteb; reflexivity].
Defined.

Lemma X13_decrypt_check_empty_witness :
  decrypt_check toy_decrypt {| key := toy_key |} [] toy_iv = Ok ([], false).
Proof.
  apply (X13_decrypt_check_empty toy_decrypt {| key := toy_key |} toy_iv).
  reflexivity.
Defined.


Lemma X15_oracle_accepts_own_ciphertext_witness :
  exists ct,
    encrypt toy_encrypt {| key := toy_key |} toy_iv long_secret_message
      = Ok (toy_iv, ct) /\
    decrypt_check toy_decrypt {| key := toy_key |} ct toy_iv
      = Ok (pad long_secret_message BLOCKSIZE, true) /\
    demo_main toy_encrypt toy_decrypt toy_key toy_iv long_secret_message
      = Ok (toy_iv, ct, pad long_secret_message BLOCKSIZE, true).
Proof.
  apply (X15_oracle_accepts_own_ciphertext toy_encrypt toy_decrypt
           toy_encrypt_block toy_decrypt_encrypt toy_key toy_iv
           long_secret_message).
  - split; [reflexivity | apply forallb_is_byteb; reflexivity].
  - apply forallb_is_byteb. reflexivity.
Defined.

Lemma X16_attack_decrypts_any_block_witness :
  outcome (attack_single_block (decrypt_check toy_decrypt {| key := toy_key |})
             worst_block sample_block)
  = Ok (zip_with Z.lxor (toy_decrypt toy_key sample_block) worst_block).
Proof.
  apply (X16_attack_decrypts_any_block toy_decrypt {| key := toy_key |}
           sample_block worst_block).
  - reflexivity.
  - split; [reflexivity | apply forallb_is_byteb; reflexivity].
  - split; [reflexivity | apply forallb_is_byteb; reflexivity].
Defined.

